(** * Retrieval and reranking pipeline of cerberus-chat

    A shallow embedding of the chunker ([ingest/chunker.ts]), the hybrid
    search of the vector stores ([db/vectra-store.ts], [db/chroma.ts]), the
    retrieval facade ([rag/selector.ts]), the rerankers
    ([rag/reranker.ts], [openai.ts]) and the query step of the chat
    ([commands/chat.ts]), followed by the properties of the specification
    that concern them and by further properties of the code.

    Conventions of the embedding.
    - A JavaScript [number] that holds a score is an exact rational ([Q]);
      sizes, indices and top-K parameters are integers ([Z], or [nat] for an
      array index or length).  Rounding of IEEE doubles is not modelled.
    - A string is its sequence of code units, restricted to code units
      below 256 (Rocq's [string]).
    - [Array.prototype.sort] is stable and, for a consistent comparator,
      returns the unique stable sorted permutation; [Js.sort] computes it by
      stable insertion.
    - A [Map] iterates in insertion order and [set] on a present key keeps
      the key's position: it is an association list updated in place.
    - Calls to external services (the index, the chat-completion endpoint)
      are inputs of the functions that consume their results.
    - Console logging is left out; the tokens a service call adds to the
      cost tracker are an input where a result reports them. *)

From Stdlib Require Import QArith Qround ZArith List String Ascii Permutation Sorted Lia Lqa.
From stdpp Require Import gmap strings list pretty.

Open Scope Z_scope.

(** ** JavaScript array and string primitives *)

Module Js.

(** Completion of a call: a returned value or a thrown [Error]. *)
Inductive completion (A : Type) : Type :=
| Returned (a : A)
| Thrown (message : string).
Arguments Returned {A} a.
Arguments Thrown {A} message.

Definition bind {A B} (c : completion A) (k : A → completion B) : completion B :=
  match c with
  | Returned a => k a
  | Thrown m => Thrown m
  end.

(** [arr.length] as a number. *)
Definition len {A} (l : list A) : Z := Z.of_nat (length l).

(** [arr.slice(start, end)]: negative indices count from the end, both
    are clamped to the array. *)
Definition slice {A} (l : list A) (start end_ : Z) : list A :=
  let k := if start <? 0 then Z.max (len l + start) 0 else Z.min start (len l) in
  let final := if end_ <? 0 then Z.max (len l + end_) 0 else Z.min end_ (len l) in
  firstn (Z.to_nat (final - k)) (skipn (Z.to_nat k) l).

(** One insertion of a stable sort: [x] preceded every element of [l] in
    the array, so it moves behind [y] only when [comparefn x y > 0]. *)
Fixpoint sort_insert {A} (comparefn : A → A → Q) (x : A) (l : list A) : list A :=
  match l with
  | [] => [x]
  | y :: l' =>
      if Qle_bool (comparefn x y) 0 then x :: y :: l'
      else y :: sort_insert comparefn x l'
  end.

(** [arr.sort(comparefn)], as the value of the sorted array. *)
Definition sort {A} (comparefn : A → A → Q) (l : list A) : list A :=
  foldr (sort_insert comparefn) [] l.

(** [/\s/] on code units below 256: tab, line feed, vertical tab, form
    feed, carriage return, space and no-break space. *)
Definition is_space (c : ascii) : bool :=
  match N_of_ascii c with
  | 9%N | 10%N | 11%N | 12%N | 13%N | 32%N | 160%N => true
  | _ => false
  end.

(** [text.split(/\s+/)]: the pieces between maximal runs of white space,
    the empty pieces at both ends included.  [cur] is the piece being
    read and [in_ws] tells that the previous code unit was white space. *)
Fixpoint split_ws_from (cur : string) (in_ws : bool) (s : string) : list string :=
  match s with
  | EmptyString => [cur]
  | String c s' =>
      if is_space c then
        if in_ws then split_ws_from EmptyString true s'
        else cur :: split_ws_from EmptyString true s'
      else split_ws_from (cur ++ String c EmptyString)%string false s'
  end.

Definition split_ws (text : string) : list string :=
  split_ws_from EmptyString false text.

(** [arr.join(sep)]. *)
Definition join (sep : string) (l : list string) : string := String.concat sep l.

End Js.

Import Js.

(** ** Configuration ([config.ts]) *)

Module Config.

Record ChunkingConfig := {
  chunkSize : Z;
  overlap : Z;
  minChunkSize : Z
}.

Record RetrievalConfig := {
  semanticTopK : Z;
  keywordTopK : Z;
  rerankTopK : Z;
  minSimilarityScore : Q
}.

Record RAGConfig := {
  apiKey : string;
  chunking : ChunkingConfig;
  retrieval : RetrievalConfig
}.

(** The values [loadConfig] yields when the environment sets none of the
    variables but the API key. *)
Definition defaultConfig (key : string) : RAGConfig :=
  {| apiKey := key;
     chunking := {| chunkSize := 500; overlap := 128; minChunkSize := 50 |};
     retrieval := {| semanticTopK := 20; keywordTopK := 10; rerankTopK := 5;
                     minSimilarityScore := 0.5 |} |}.

End Config.

(** ** Chunker ([ingest/chunker.ts]) *)

Module Chunker.

(** [text.split(/\s+/).filter((w) => w.length > 0)]. *)
Definition words_of (text : string) : list string :=
  filter (fun w => (0 <? String.length w)%nat) (split_ws text).

(** The [while (start < words.length)] loop of [chunkText].  Every turn
    advances [start] by at least one word, so [length words] turns are
    enough; [None] is the loop cut short by [fuel]. *)
Fixpoint chunk_loop (fuel : nat) (words : list string)
    (chunkSize overlap minChunkSize : Z) (start : Z) (chunks : list string)
    : option (list string) :=
  if start <? len words then
    match fuel with
    | O => None
    | S fuel' =>
        let end_ := Z.min (start + chunkSize) (len words) in
        let chunk := join " " (slice words start end_) in
        let chunks :=
          if minChunkSize <=? Z.of_nat (String.length chunk)
          then chunks ++ [chunk] else chunks in
        if end_ =? len words then Some chunks
        else chunk_loop fuel' words chunkSize overlap minChunkSize
               (start + Z.max 1 (chunkSize - overlap)) chunks
    end
  else Some chunks.

(** [chunkText(text, chunkSize, overlap)]; an absent argument takes the
    configured value. *)
Definition chunkText (config : Config.RAGConfig) (text : string)
    (chunkSize overlap : option Z) : option (list string) :=
  let chunkSize := default config.(Config.chunking).(Config.chunkSize) chunkSize in
  let overlap := default config.(Config.chunking).(Config.overlap) overlap in
  let words := words_of text in
  if (length words =? 0)%nat then Some []
  else chunk_loop (length words) words chunkSize overlap
         config.(Config.chunking).(Config.minChunkSize) 0 [].

End Chunker.

(** ** Records of [schema.ts] *)

Record ChunkMetadata := {
  ticketUid : string;
  ticketMask : string;
  ticketSubject : string;
  messageUid : option string;
  isOutgoing : option bool;
  chunkIndex : Z;
  totalChunks : Z;
  timestamp : option string;
  groupId : option Z;
  bucketId : option Z
}.

Record SearchResult := {
  id : string;
  text : string;
  score : Q;
  metadata : ChunkMetadata
}.

(** The fields [id], [text], [score] and [metadata] of a [RerankResult]
    carry the prefix [r], the plain names being those of [SearchResult].
    Its score is read from the array of rerank scores at the candidate's
    index: it is [None] ([undefined]) when that array is too short. *)
Record RerankResult := {
  rid : string;
  rtext : string;
  rscore : option Q;
  originalIndex : nat;
  rmetadata : ChunkMetadata
}.

(** ** [Map<string, V>] *)

Module JsMap.

Definition t (V : Type) : Type := list (string * V).

Fixpoint get {V} (k : string) (m : t V) : option V :=
  match m with
  | [] => None
  | (k', v) :: m' => if String.eqb k k' then Some v else get k m'
  end.

(** [m.set(k, v)]: a present key keeps its place in the iteration
    order, a new key goes last. *)
Fixpoint set {V} (k : string) (v : V) (m : t V) : t V :=
  match m with
  | [] => [(k, v)]
  | (k', v') :: m' =>
      if String.eqb k k' then (k, v) :: m' else (k', v') :: set k v m'
  end.

Definition keys {V} (m : t V) : list string := map fst m.

(** [Array.from(m.values())]. *)
Definition values {V} (m : t V) : list V := map snd m.

End JsMap.

(** ** Vector stores ([db/vectra-store.ts], [db/chroma.ts]) *)

Module VectorStore.

(** The engine behind a store: what its keyword query and its
    nearest-neighbour query return, the latter before any score floor. *)
Record Engine := {
  keywordQuery : string → Z → list SearchResult;
  queryItems : list Q → Z → list SearchResult
}.

Definition metaKeywordSearch (e : Engine) (query : string) (topK : option Z)
    : list SearchResult :=
  e.(keywordQuery) query (default 10 topK).

(** [semanticSearch(queryEmbedding, topK = 20, minScore = 0.5)]. *)
Definition semanticSearch (e : Engine) (queryEmbedding : list Q)
    (topK : option Z) (minScore : option Q) : list SearchResult :=
  let minScore := default 0.5%Q minScore in
  filter (fun result => Qle_bool minScore result.(score))
         (e.(queryItems) queryEmbedding (default 20 topK)).

Definition withScore (r : SearchResult) (s : Q) : SearchResult :=
  {| id := r.(id); text := r.(text); score := s; metadata := r.(metadata) |}.

(** First [forEach] of [hybridSearch]: keyword results, boosted. *)
Definition addKeyword (resultsMap : JsMap.t SearchResult) (result : SearchResult)
    : JsMap.t SearchResult :=
  JsMap.set result.(id) (withScore result (result.(score) * 1.2)%Q) resultsMap.

(** Second [forEach]: semantic results, averaged with what is there. *)
Definition addSemantic (resultsMap : JsMap.t SearchResult) (result : SearchResult)
    : JsMap.t SearchResult :=
  match JsMap.get result.(id) resultsMap with
  | Some existing =>
      JsMap.set result.(id)
        (withScore result ((existing.(score) + result.(score)) / 2)%Q) resultsMap
  | None => JsMap.set result.(id) result resultsMap
  end.

Definition fuse (keywordResults semanticResults : list SearchResult)
    : JsMap.t SearchResult :=
  foldl addSemantic (foldl addKeyword [] keywordResults) semanticResults.

(** [(a, b) => b.score - a.score]. *)
Definition byScoreDesc (a b : SearchResult) : Q := (b.(score) - a.(score))%Q.

(** [hybridSearch(query, queryEmbedding, keywordTopK = 10, semanticTopK = 20)];
    the vector search is called without a third argument. *)
Definition hybridSearch (e : Engine) (query : string) (queryEmbedding : list Q)
    (keywordTopK semanticTopK : option Z) : list SearchResult :=
  let keywordTopK := default 10 keywordTopK in
  let semanticTopK := default 20 semanticTopK in
  let keywordResults := metaKeywordSearch e query (Some keywordTopK) in
  let semanticResults := semanticSearch e queryEmbedding (Some semanticTopK) None in
  sort byScoreDesc (JsMap.values (fuse keywordResults semanticResults)).

End VectorStore.

(** ** Retrieval facade ([rag/selector.ts]) *)

Module Selector.

(** [retrieveRelevantChunks]; [generateEmbedding] is the embedder, whose
    failure is thrown on. *)
Definition retrieveRelevantChunks (config : Config.RAGConfig)
    (generateEmbedding : string → completion (list Q))
    (chroma : VectorStore.Engine) (query : string)
    : completion (list SearchResult) :=
  bind (generateEmbedding query) (fun queryEmbedding =>
    let results :=
      VectorStore.hybridSearch chroma query queryEmbedding
        (Some config.(Config.retrieval).(Config.keywordTopK))
        (Some config.(Config.retrieval).(Config.semanticTopK)) in
    let filtered :=
      filter (fun r => Qle_bool config.(Config.retrieval).(Config.minSimilarityScore)
                         r.(score)) results in
    Returned filtered).

End Selector.

(** ** Relevance scoring ([openai.ts]) *)

Module OpenAI.

(** What happens inside the [try] block of [rerankChunks]: the request,
    [JSON.parse] or the traversal of the parsed value throws, or the
    reply parses to an array.  An array element is [None] when [isNaN]
    holds of it and its numeric value otherwise. *)
Inductive ScoringReply :=
| ScoringFailed
| ScoresParsed (scores : list (option Q)).

Definition Scorer := string → list string → ScoringReply.

(** [getOpenAIClient]: throws without an API key. *)
Definition getOpenAIClient (config : Config.RAGConfig) : completion unit :=
  if String.eqb config.(Config.apiKey) "" then
    Thrown "OPENAI_API_KEY not set in environment"
  else Returned tt.

(** [rerankChunks(query, chunks, costTracker)].  The client is obtained
    before the [try] block; a failure inside it yields the default
    scores. *)
Definition rerankChunks (config : Config.RAGConfig) (scorer : Scorer)
    (query : string) (chunks : list string) : completion (list Q) :=
  bind (getOpenAIClient config) (fun _ =>
    match scorer query chunks with
    | ScoresParsed scores =>
        Returned (map (fun score =>
                         match score with
                         | None => 0%Q
                         | Some score => (score / 10)%Q
                         end) scores)
    | ScoringFailed => Returned (map (fun _ => 0.5%Q) chunks)
    end).

End OpenAI.

(** ** Rerankers ([rag/reranker.ts]) *)

Module Reranker.

(** [(a, b) => b.score - a.score] on rerank results; the difference is
    [NaN] when a score is [undefined], and the sort reads [NaN] as 0. *)
Definition byRerankScoreDesc (a b : RerankResult) : Q :=
  match b.(rscore), a.(rscore) with
  | Some sb, Some sa => (sb - sa)%Q
  | _, _ => 0%Q
  end.

Definition rerankWithOpenAI (config : Config.RAGConfig) (scorer : OpenAI.Scorer)
    (query : string) (results : list SearchResult) (topK : option Z)
    : completion (list RerankResult) :=
  if (length results =? 0)%nat then Returned []
  else
    let texts := map text results in
    bind (OpenAI.rerankChunks config scorer query texts) (fun rerankScores =>
      let reranked :=
        imap (fun index result =>
                {| rid := result.(id);
                   rtext := result.(text);
                   rscore := rerankScores !! index;
                   originalIndex := index;
                   rmetadata := result.(metadata) |}) results in
      let reranked := sort byRerankScoreDesc reranked in
      let finalTopK := default config.(Config.retrieval).(Config.rerankTopK) topK in
      let topResults := slice reranked 0 finalTopK in
      Returned topResults).

(** Arrays of search results live in a store, so that sorting one in
    place is seen by whoever holds a reference to it. *)
Definition loc := positive.
Definition heap := gmap loc (list SearchResult).

(** [rerankByScore(results, topK)], with [results] a reference:
    [results.sort] reorders the referenced array and returns the same
    reference; [slice] and [map] build new arrays.  The result is [None]
    only for a reference to no array, which no caller holds. *)
Definition rerankByScore (config : Config.RAGConfig) (results : loc)
    (topK : option Z) (h : heap) : option (list RerankResult * heap) :=
  let finalTopK := default config.(Config.retrieval).(Config.rerankTopK) topK in
  match h !! results with
  | None => None
  | Some arr =>
      let sorted := sort VectorStore.byScoreDesc arr in
      let h' := <[results := sorted]> h in
      Some (imap (fun index result =>
                    {| rid := result.(id);
                       rtext := result.(text);
                       rscore := Some result.(score);
                       originalIndex := index;
                       rmetadata := result.(metadata) |})
                 (slice sorted 0 finalTopK), h')
  end.

(** [diverse.length < topK / 2]. *)
Definition belowHalf (n : nat) (topK : Z) : bool :=
  negb (Qle_bool (inject_Z topK / 2) (inject_Z (Z.of_nat n))).

(** Body of the [for ... of] loop of [rerankWithDiversity], up to the
    test that breaks out of it. *)
Definition diversityStep (topK : Z) (st : list RerankResult * gset string)
    (result : RerankResult) : list RerankResult * gset string :=
  let '(diverse, selectedTickets) := st in
  if decide (result.(rmetadata).(ticketUid) ∈ selectedTickets) then
    if belowHalf (length diverse) topK
    then (diverse ++ [result], selectedTickets)
    else (diverse, selectedTickets)
  else (diverse ++ [result], selectedTickets ∪ {[result.(rmetadata).(ticketUid)]}).

Fixpoint diversityLoop (topK : Z) (reranked : list RerankResult)
    (st : list RerankResult * gset string) : list RerankResult * gset string :=
  match reranked with
  | [] => st
  | result :: rest =>
      let st' := diversityStep topK st result in
      if topK <=? len st'.1 then st' else diversityLoop topK rest st'
  end.

(** [rerankWithDiversity(query, results, costTracker, topK, diversityThreshold)];
    the last argument is not read. *)
Definition rerankWithDiversity (config : Config.RAGConfig) (scorer : OpenAI.Scorer)
    (query : string) (results : list SearchResult) (topK : option Z)
    : completion (list RerankResult) :=
  if (length results =? 0)%nat then Returned []
  else
    bind (rerankWithOpenAI config scorer query results (Some (len results)))
      (fun reranked =>
         let topK := default config.(Config.retrieval).(Config.rerankTopK) topK in
         Returned (diversityLoop topK reranked ([], ∅)).1).

End Reranker.

(** ** Structured chunks ([ingest/chunker.ts], continued) *)

(** A ticket record of [schema.ts]; the constant tag [_context] is left
    to the type. *)
Module TicketRecord.
Record t := {
  uid : string;
  mask : string;
  subject : string;
  importance : Z;
  group_id : Z;
  bucket_id : Z
}.
End TicketRecord.

Module TextChunk.
Record t := {
  id : string;
  text : string;
  ticketUid : string;
  ticketMask : string;
  ticketSubject : string;
  messageUid : option string;
  chunkIndex : Z;
  metadata : ChunkMetadata
}.
End TextChunk.

(** The elements of the [messages] argument of [chunkByMessages]. *)
Module Message.
Record t := {
  content : string;
  uid : string;
  isOutgoing : bool
}.
End Message.

Module Ingest.
Import Chunker.

(** Truth value of an optional string: [undefined] and [""] are falsy. *)
Definition truthy (s : option string) : bool :=
  match s with
  | Some s => negb (String.eqb s "")
  | None => false
  end.

(** [createTextChunks(text, ticketRecord, messageUid, isOutgoing)]: the
    texts of [chunkText(text)], each with its metadata and id.  A number
    in a template string is its decimal numeral. *)
Definition createTextChunks (config : Config.RAGConfig) (text : string)
    (ticketRecord : TicketRecord.t) (messageUid : option string)
    (isOutgoing : option bool) : option (list TextChunk.t) :=
  chunkTexts ← chunkText config text None None;
  Some (imap (fun index chunkText =>
    let metadata :=
      {| ticketUid := ticketRecord.(TicketRecord.uid);
         ticketMask := ticketRecord.(TicketRecord.mask);
         ticketSubject := ticketRecord.(TicketRecord.subject);
         messageUid := messageUid;
         isOutgoing := isOutgoing;
         chunkIndex := Z.of_nat index;
         totalChunks := len chunkTexts;
         timestamp := None;
         groupId := Some ticketRecord.(TicketRecord.group_id);
         bucketId := Some ticketRecord.(TicketRecord.bucket_id) |} in
    let chunkId :=
      if truthy messageUid then
        ticketRecord.(TicketRecord.uid) +:+ "_" +:+ default "" messageUid
          +:+ "_chunk_" +:+ pretty index
      else ticketRecord.(TicketRecord.uid) +:+ "_chunk_" +:+ pretty index in
    {| TextChunk.id := chunkId;
       TextChunk.text := chunkText;
       TextChunk.ticketUid := ticketRecord.(TicketRecord.uid);
       TextChunk.ticketMask := ticketRecord.(TicketRecord.mask);
       TextChunk.ticketSubject := ticketRecord.(TicketRecord.subject);
       TextChunk.messageUid := messageUid;
       TextChunk.chunkIndex := Z.of_nat index;
       TextChunk.metadata := metadata |}) chunkTexts).

(** [chunkByMessages(messages, ticketRecord)]: the chunks of every
    message, pushed onto one array in the order of the messages. *)
Definition chunkByMessages (config : Config.RAGConfig) (messages : list Message.t)
    (ticketRecord : TicketRecord.t) : option (list TextChunk.t) :=
  foldl (fun allChunks message =>
           allChunks ← allChunks;
           chunks ← createTextChunks config message.(Message.content) ticketRecord
                      (Some message.(Message.uid))
                      (Some message.(Message.isOutgoing));
           Some (allChunks ++ chunks))
        (Some []) messages.

End Ingest.

(** ** The earlier chunker (second [chunkText] of the chunker sources) *)

Module ChunkerLegacy.

(** The [for] loop: no filter on the words, no size floor, and a step of
    [chunkSize - overlap] that is not kept positive.  [None] is the loop
    still running when [fuel] turns are over. *)
Fixpoint chunk_loop (fuel : nat) (words : list string) (chunkSize overlap : Z)
    (start : Z) (chunks : list string) : option (list string) :=
  if start <? len words then
    match fuel with
    | O => None
    | S fuel' =>
        let chunks := chunks ++ [join " " (slice words start (start + chunkSize))] in
        if len words <=? start + chunkSize then Some chunks
        else chunk_loop fuel' words chunkSize overlap
               (start + (chunkSize - overlap)) chunks
    end
  else Some chunks.

(** [chunkText(text, chunkSize = 500, overlap = 128)], run for at most
    [fuel] turns of its loop. *)
Definition chunkText (fuel : nat) (text : string) (chunkSize overlap : option Z)
    : option (list string) :=
  let words := split_ws text in
  chunk_loop fuel words (default 500 chunkSize) (default 128 overlap) 0 [].

End ChunkerLegacy.

(** ** Combined scoring ([rag/reranker.ts], continued) *)

Module CombinedReranker.
Import OpenAI Reranker.

(** [rerankWithCombinedScoring(query, results, costTracker, topK,
    originalWeight = 0.3, rerankWeight = 0.7)].  A candidate beyond the
    scores that came back has the combined score [NaN], here [None]. *)
Definition rerankWithCombinedScoring (config : Config.RAGConfig) (scorer : Scorer)
    (query : string) (results : list SearchResult) (topK : option Z)
    (originalWeight rerankWeight : option Q) : completion (list RerankResult) :=
  let originalWeight := default 0.3%Q originalWeight in
  let rerankWeight := default 0.7%Q rerankWeight in
  if (length results =? 0)%nat then Returned []
  else
    let texts := map text results in
    bind (rerankChunks config scorer query texts) (fun rerankScores =>
      let reranked :=
        imap (fun index result =>
                let combinedScore :=
                  (fun rerankScore =>
                     originalWeight * result.(score) + rerankWeight * rerankScore)%Q
                    <$> rerankScores !! index in
                {| rid := result.(id);
                   rtext := result.(text);
                   rscore := combinedScore;
                   originalIndex := index;
                   rmetadata := result.(metadata) |}) results in
      let reranked := sort byRerankScoreDesc reranked in
      let finalTopK := default config.(Config.retrieval).(Config.rerankTopK) topK in
      let topResults := slice reranked 0 finalTopK in
      Returned topResults).

End CombinedReranker.

(** ** Retrieval facade ([rag/selector.ts], continued) *)

(** The [filters] argument of [retrieveWithMetadataFilter]. *)
Module Filters.
Record t := {
  groupId : option Z;
  bucketId : option Z;
  ticketMask : option string
}.
End Filters.

(** The values of the map [ticketScores] of [findSimilarTickets]. *)
Module TicketScore.
Record t := {
  score : Q;
  chunks : list SearchResult
}.
End TicketScore.

Module SelectorMore.
Import VectorStore Selector.

(** [retrieveSemanticChunks(query, chroma, costTracker, topK)]. *)
Definition retrieveSemanticChunks (config : Config.RAGConfig)
    (generateEmbedding : string → completion (list Q))
    (chroma : Engine) (query : string) (topK : option Z)
    : completion (list SearchResult) :=
  bind (generateEmbedding query) (fun queryEmbedding =>
    Returned (semanticSearch chroma queryEmbedding
                (Some (default config.(Config.retrieval).(Config.semanticTopK) topK))
                (Some config.(Config.retrieval).(Config.minSimilarityScore)))).

(** [retrieveKeywordChunks(query, chroma, topK)]. *)
Definition retrieveKeywordChunks (config : Config.RAGConfig) (chroma : Engine)
    (query : string) (topK : option Z) : list SearchResult :=
  metaKeywordSearch chroma query
    (Some (default config.(Config.retrieval).(Config.keywordTopK) topK)).

(** [s.includes(searchString)]. *)
Fixpoint includes (s searchString : string) : bool :=
  String.prefix searchString s
  || match s with
     | EmptyString => false
     | String _ s' => includes s' searchString
     end.

(** [value !== filter], for a [filter] that is a number. *)
Definition differs (value : option Z) (filter : Z) : bool :=
  match value with
  | Some value => negb (value =? filter)
  | None => true
  end.

(** The callback of [chunks.filter] in [retrieveWithMetadataFilter]. *)
Definition passes (filters : Filters.t) (chunk : SearchResult) : bool :=
  let metadata := chunk.(metadata) in
  if match filters.(Filters.groupId) with
     | Some wanted => differs metadata.(groupId) wanted
     | None => false
     end
  then false
  else if match filters.(Filters.bucketId) with
          | Some wanted => differs metadata.(bucketId) wanted
          | None => false
          end
  then false
  else if Ingest.truthy filters.(Filters.ticketMask)
          && negb (includes metadata.(ticketMask)
                            (default EmptyString filters.(Filters.ticketMask)))
  then false
  else true.

(** [retrieveWithMetadataFilter(query, chroma, costTracker, sqlite, filters)];
    the [sqlite] argument is not read. *)
Definition retrieveWithMetadataFilter (config : Config.RAGConfig)
    (generateEmbedding : string → completion (list Q))
    (chroma : Engine) (query : string) (filters : option Filters.t)
    : completion (list SearchResult) :=
  bind (retrieveRelevantChunks config generateEmbedding chroma query) (fun chunks =>
    match filters with
    | None => Returned chunks
    | Some filters => Returned (filter (fun chunk => passes filters chunk) chunks)
    end).

(** [result.metadata.ticketUid]. *)
Definition ticketOf (result : SearchResult) : string :=
  result.(metadata).(ticketUid).

(** [Math.max] of two numbers. *)
Definition Math_max (a b : Q) : Q := if Qle_bool a b then b else a.

(** The callback of [results.forEach] in [findSimilarTickets].  The
    update of an entry already in the map keeps its place. *)
Definition noteResult (ticketUid : string) (ticketScores : JsMap.t TicketScore.t)
    (result : SearchResult) : JsMap.t TicketScore.t :=
  if String.eqb (ticketOf result) ticketUid then ticketScores
  else
    match JsMap.get (ticketOf result) ticketScores with
    | Some existingTicket =>
        JsMap.set (ticketOf result)
          {| TicketScore.score :=
               Math_max existingTicket.(TicketScore.score) result.(score);
             TicketScore.chunks := existingTicket.(TicketScore.chunks) ++ [result] |}
          ticketScores
    | None =>
        JsMap.set (ticketOf result)
          {| TicketScore.score := result.(score);
             TicketScore.chunks := [result] |}
          ticketScores
    end.

(** [(a, b) => b[1].score - a[1].score] on the entries of the map. *)
Definition byTicketScoreDesc (a b : string * TicketScore.t) : Q :=
  (b.2.(TicketScore.score) - a.2.(TicketScore.score))%Q.

(** [findSimilarTickets(ticketUid, chroma, costTracker, topK = 5)]; an
    element of the result is [None] where [chunks[0]] is [undefined]. *)
Definition findSimilarTickets (generateEmbedding : string → completion (list Q))
    (chroma : Engine) (ticketUid : string) (topK : option Z)
    : completion (list (option SearchResult)) :=
  let topK := default 5 topK in
  bind (generateEmbedding ticketUid) (fun queryEmbedding =>
    let results := semanticSearch chroma queryEmbedding (Some (topK * 3)) None in
    let ticketScores := foldl (noteResult ticketUid) [] results in
    let topTickets := slice (sort byTicketScoreDesc ticketScores) 0 topK in
    Returned (map (fun entry => head entry.2.(TicketScore.chunks)) topTickets)).

End SelectorMore.

(** ** Chat ([commands/chat.ts]) *)

Module Chat.
Import VectorStore Selector Reranker.

Inductive Role := system | user | assistant.

Record ChatMessage := {
  role : Role;
  content : string
}.

Record ChatResponse := {
  answer : string;
  sources : list RerankResult;
  tokensUsed : Z
}.

(** What one query meets outside the program: the embedder, the scorer
    and the chat model, the tokens each of them adds to the cost tracker
    when it is called, the two prompts of the configuration, and
    [String.prototype.replace] with a pattern that is a string. *)
Record Services := {
  generateEmbedding : string → completion (list Q);
  scorer : OpenAI.Scorer;
  generateChatCompletion : list ChatMessage → completion string;
  embeddingTokens : Z;
  rerankTokens : Z;
  completionTokens : Z;
  systemPrompt : string;
  answerPrompt : string;
  replace : string → string → string → string
}.

(** The array after [arr.splice(start, deleteCount)]. *)
Definition splice {A} (l : list A) (start deleteCount : Z) : list A :=
  let actualStart := if start <? 0 then Z.max (len l + start) 0 else Z.min start (len l) in
  let actualDeleteCount := Z.min (Z.max deleteCount 0) (len l - actualStart) in
  take (Z.to_nat actualStart) l ++ drop (Z.to_nat (actualStart + actualDeleteCount)) l.

(** The line feed of the template strings. *)
Definition LF : string := String "010"%char EmptyString.

(** [processQuery(query, vectorStore, cost, conversationHistory)]: the
    completion of the call and the caller's [conversationHistory] after
    it. *)
Definition processQuery (config : Config.RAGConfig) (svc : Services)
    (vectorStore : Engine) (query : string) (conversationHistory : list ChatMessage)
    : completion ChatResponse * list ChatMessage :=
  match retrieveRelevantChunks config svc.(generateEmbedding) vectorStore query with
  | Thrown message => (Thrown message, conversationHistory)
  | Returned retrievedChunks =>
      if (length retrievedChunks =? 0)%nat then
        (Returned
           {| answer := "I couldn't find any relevant information in the ticket database to answer your question.";
              sources := [];
              tokensUsed := svc.(embeddingTokens) |},
         conversationHistory)
      else
        match rerankWithDiversity config svc.(scorer) query retrievedChunks None with
        | Thrown message => (Thrown message, conversationHistory)
        | Returned rerankedChunks =>
            let context :=
              join (LF +:+ LF +:+ "---" +:+ LF +:+ LF)
                (imap (fun index chunk =>
                         "[Source " +:+ pretty (index + 1)%nat +:+ " - Ticket "
                         +:+ chunk.(rmetadata).(ticketMask) +:+ "]" +:+ LF
                         +:+ chunk.(rtext)) rerankedChunks) in
            let promptWithContext :=
              svc.(replace)
                (svc.(replace) svc.(answerPrompt) "{context}" context)
                "{question}" query in
            let conversationHistory :=
              conversationHistory ++ [{| role := user; content := promptWithContext |}] in
            match svc.(generateChatCompletion) conversationHistory with
            | Thrown message => (Thrown message, conversationHistory)
            | Returned answer =>
                let conversationHistory :=
                  conversationHistory ++ [{| role := assistant; content := answer |}] in
                let conversationHistory :=
                  if 21 <? len conversationHistory
                  then splice conversationHistory 1 (len conversationHistory - 21)
                  else conversationHistory in
                (Returned
                   {| answer := answer;
                      sources := rerankedChunks;
                      tokensUsed := svc.(embeddingTokens) + svc.(rerankTokens)
                                    + svc.(completionTokens) |},
                 conversationHistory)
            end
        end
  end.

(** [processQueryStateless(query, vectorStore, cost)]. *)
Definition processQueryStateless (config : Config.RAGConfig) (svc : Services)
    (vectorStore : Engine) (query : string) : completion ChatResponse :=
  let conversationHistory := [{| role := system; content := svc.(systemPrompt) |}] in
  (processQuery config svc vectorStore query conversationHistory).1.

End Chat.

(** * Vocabulary of the properties *)

(** [a] may stand before [b] in an array sorted by [key], largest first. *)
Definition descending {A} (key : A → Q) (a b : A) : Prop := (key b <= key a)%Q.

Module FusionSpec.
Import VectorStore.

(** The ids of a list in order of first occurrence. *)
Definition note_id (seen : list string) (k : string) : list string :=
  if decide (k ∈ seen) then seen else seen ++ [k].

Definition first_occurrences (ids : list string) : list string :=
  foldl note_id [] ids.

(** Every entry of the map is stored under its own id. *)
Definition keyed (m : JsMap.t SearchResult) : Prop :=
  Forall (fun kv => kv.2.(id) = kv.1) m.

(** The ranking [hybridSearch] builds from the two result lists. *)
Definition ranked (kw sem : list SearchResult) : list SearchResult :=
  sort byScoreDesc (JsMap.values (fuse kw sem)).

(** Ties: for candidates of equal fused score. *)
Definition tied (q : Q) (r : SearchResult) : Prop := Qeq_bool r.(score) q.

(** The retrieval as the specification words it: the vector search is
    issued with a score floor of 0. *)
Definition hybridSearch_floor0 (e : Engine) (query : string) (queryEmbedding : list Q)
    (keywordTopK semanticTopK : option Z) : list SearchResult :=
  ranked (metaKeywordSearch e query keywordTopK)
         (semanticSearch e queryEmbedding semanticTopK (Some 0%Q)).

(** Candidates of equal score are in ascending order of id. *)
Definition tiesAscendById (out : list SearchResult) : Prop :=
  ∀ i j a b, (i < j)%nat → out !! i = Some a → out !! j = Some b →
    (a.(score) == b.(score))%Q → String.ltb a.(id) b.(id) = true.

End FusionSpec.

Module DiversitySpec.
Import Reranker.

Definition source (r : RerankResult) : string := r.(rmetadata).(ticketUid).

(** Results accepted when [reranked] is walked with budget [topK]. *)
Definition diverse (topK : Z) (reranked : list RerankResult) : list RerankResult :=
  (diversityLoop topK reranked ([], ∅)).1.

(** Number of results that come from the ticket [uid]. *)
Definition fromSource (uid : string) (l : list RerankResult) : nat :=
  length (filter (fun r => source r = uid) l).

(** The set of tickets is the set of sources of the accepted results. *)
Definition tracked (st : list RerankResult * gset string) : Prop :=
  st.2 = list_to_set (map source st.1).

End DiversitySpec.

Module RerankSpec.
Import OpenAI Reranker.

(** The candidates paired with their rerank scores, before sorting. *)
Definition scored (rerankScores : list Q) (results : list SearchResult)
    : list RerankResult :=
  imap (fun index result =>
          {| rid := result.(id);
             rtext := result.(text);
             rscore := rerankScores !! index;
             originalIndex := index;
             rmetadata := result.(metadata) |}) results.

(** The scores [rerankChunks] returns once the client exists. *)
Definition scoresOf (reply : ScoringReply) (chunks : list string) : list Q :=
  match reply with
  | ScoresParsed scores =>
      map (fun score => match score with
                        | None => 0%Q
                        | Some score => (score / 10)%Q
                        end) scores
  | ScoringFailed => map (fun _ => 0.5%Q) chunks
  end.

Definition hasScore (r : RerankResult) : Prop := is_Some r.(rscore).

Definition scoreKey (r : RerankResult) : Q := default 0%Q r.(rscore).

(** [a] scores at least as much as [b], both scores being defined. *)
Definition scoresAtLeast (a b : RerankResult) : Prop :=
  match a.(rscore), b.(rscore) with
  | Some x, Some y => (y <= x)%Q
  | _, _ => False
  end.

End RerankSpec.

Module ChunkerSpec.
Import Chunker.

(** The windows of words behind the chunks: [chunk_loop] without the
    joining and the size floor. *)
Fixpoint window_loop (fuel : nat) (words : list string) (chunkSize overlap : Z)
    (start : Z) (wins : list (list string)) : option (list (list string)) :=
  if start <? len words then
    match fuel with
    | O => None
    | S fuel' =>
        let end_ := Z.min (start + chunkSize) (len words) in
        let wins := wins ++ [slice words start end_] in
        if end_ =? len words then Some wins
        else window_loop fuel' words chunkSize overlap
               (start + Z.max 1 (chunkSize - overlap)) wins
    end
  else Some wins.

(** The chunks made of a list of windows: each window joined by single
    spaces, kept when it has at least [floor] characters. *)
Definition emit (floor : Z) (wins : list (list string)) : list string :=
  filter (fun chunk => floor ≤ Z.of_nat (String.length chunk)) (map (join " ") wins).

(** [n] windows of [size] words, the first at [start], each [step]
    words after the one before. *)
Definition windows (n : nat) (words : list string) (size step start : Z)
    : list (list string) :=
  map (fun j : nat => slice words (start + Z.of_nat j * step)
                                  (start + Z.of_nat j * step + size))
      (seq 0 n).

(** The first window whole, then every later window without its first
    [overlap] words. *)
Definition stitch (overlap : Z) (wins : list (list string)) : list string :=
  match wins with
  | [] => []
  | w :: ws => w ++ concat (map (drop (Z.to_nat overlap)) ws)
  end.

(** The string holds no white space. *)
Fixpoint spaceless (s : string) : bool :=
  match s with
  | EmptyString => true
  | String c s' => negb (is_space c) && spaceless s'
  end.

End ChunkerSpec.

(** ** Inputs of the examples *)

Module Examples.
Import VectorStore.

Definition meta (uid : string) : ChunkMetadata :=
  {| ticketUid := uid; ticketMask := uid; ticketSubject := "subject";
     messageUid := None; isOutgoing := None; chunkIndex := 0; totalChunks := 1;
     timestamp := None; groupId := None; bucketId := None |}.

Definition hit (i uid : string) (s : Q) : SearchResult :=
  {| id := i; text := i; score := s; metadata := meta uid |}.

Definition cfg : Config.RAGConfig := Config.defaultConfig "sk-test".

Definition failing : OpenAI.Scorer := fun _ _ => OpenAI.ScoringFailed.

Definition grading (scores : list Q) : OpenAI.Scorer :=
  fun _ _ => OpenAI.ScoresParsed (map Some scores).

Definition noEmbedding : string → completion (list Q) := fun _ => Returned [].

(** Three passages of ticket A ahead of one passage of ticket B. *)
Definition fourHits : list SearchResult :=
  [hit "a1" "A" 0.9; hit "a2" "A" 0.8; hit "a3" "A" 0.7; hit "b1" "B" 0.6].

(** One array, at reference 1, in ascending order of score. *)
Definition unsortedHeap : Reranker.heap :=
  {[ 1%positive := [hit "a" "A" 0.2; hit "b" "B" 0.9] ]}.

(** The example of the specification: "login" matches p1 lexically with
    0.6; the vector search returns p1 with 0.8 and p2 with 0.7. *)
Definition loginEngine : Engine :=
  {| keywordQuery := fun _ _ => [hit "p1" "T1" 0.6];
     queryItems := fun _ _ => [hit "p1" "T1" 0.8; hit "p2" "T2" 0.7] |}.

(** A strong lexical match whose vector similarity is below 0.5. *)
Definition weakVectorEngine : Engine :=
  {| keywordQuery := fun _ _ => [hit "p1" "T1" 0.9];
     queryItems := fun _ _ => [hit "p1" "T1" 0.3] |}.

(** Two vector hits of equal score, the larger id first. *)
Definition tieEngine : Engine :=
  {| keywordQuery := fun _ _ => [];
     queryItems := fun _ _ => [hit "b" "T1" 0.7; hit "a" "T2" 0.7] |}.

(** A text of 1000 one-letter words. *)
Definition thousandWords : string := Js.join " " (repeat "w" 1000).

(** The default configuration with the size floor switched off. *)
Definition cfgNoFloor : Config.RAGConfig :=
  {| Config.apiKey := "sk-test";
     Config.chunking := {| Config.chunkSize := 500; Config.overlap := 128;
                           Config.minChunkSize := 0 |};
     Config.retrieval := Config.retrieval (Config.defaultConfig "sk-test") |}.

End Examples.

(** ** Further vocabulary *)

Module ChunkerMoreSpec.

(** The string holds nothing but white space. *)
Fixpoint all_space (s : string) : bool :=
  match s with
  | EmptyString => true
  | String c s' => is_space c && all_space s'
  end.

End ChunkerMoreSpec.

(** ** Vocabulary of the rerankers, continued *)

Module RerankMoreSpec.

(** [r] is the candidate [c] with the combined score of [c] and a
    rerank score [q]. *)
Definition combines (originalWeight rerankWeight q : Q) (c : SearchResult)
    (r : RerankResult) : Prop :=
  r.(rid) = c.(id) ∧ r.(rtext) = c.(text) ∧ r.(rmetadata) = c.(metadata)
  ∧ r.(rscore) = Some (originalWeight * c.(score) + rerankWeight * q)%Q.

(** The default configuration without an API key. *)
Definition cfgNoKey : Config.RAGConfig := Config.defaultConfig "".

(** One array, at reference 1, in descending order of score. *)
Definition sortedHeap : Reranker.heap :=
  {[ 1%positive := [Examples.hit "b" "B" 0.9; Examples.hit "a" "A" 0.2] ]}.

End RerankMoreSpec.

(** ** Vocabulary of the retrieval facade, continued *)

Module SelectorSpec.
Import VectorStore SelectorMore.

(** [c] meets every filter that is present: an absent [groupId] or
    [bucketId] and an absent or empty [ticketMask] ask for nothing. *)
Definition matching (filters : option Filters.t) (c : SearchResult) : Prop :=
  ∀ f, filters = Some f →
    (∀ g, f.(Filters.groupId) = Some g → c.(metadata).(groupId) = Some g)
    ∧ (∀ b, f.(Filters.bucketId) = Some b → c.(metadata).(bucketId) = Some b)
    ∧ (∀ m, f.(Filters.ticketMask) = Some m → m ≠ EmptyString →
         ∃ pre post, c.(metadata).(ticketMask) = pre +:+ m +:+ post).

(** A hit of ticket [uid] in group [g]. *)
Definition groupHit (i uid : string) (s : Q) (g : Z) : SearchResult :=
  {| id := i; text := i; score := s;
     metadata :=
       {| ticketUid := uid; ticketMask := uid; ticketSubject := "subject";
          messageUid := None; isOutgoing := None; chunkIndex := 0; totalChunks := 1;
          timestamp := None; groupId := Some g; bucketId := None |} |}.

(** Vector hits of groups 0 and 7. *)
Definition groupsEngine : Engine :=
  {| keywordQuery := fun _ _ => [];
     queryItems := fun _ _ =>
       [groupHit "p1" "T-100" 0.9 0; groupHit "p2" "T-200" 0.8 7;
        groupHit "p3" "T-101" 0.7 0] |}.

(** Vector hits of tickets A, B, A and C, in this order. *)
Definition ticketsEngine : Engine :=
  {| keywordQuery := fun _ _ => [];
     queryItems := fun _ _ =>
       [Examples.hit "a1" "A" 0.7; Examples.hit "b1" "B" 0.8;
        Examples.hit "a2" "A" 0.95; Examples.hit "c1" "C" 0.6] |}.

End SelectorSpec.

(** ** Vocabulary of [findSimilarTickets] *)

Module SimilarSpec.
Import VectorStore SelectorMore.

(** The entry of a ticket holds the hits of that ticket among [l], in
    their order, and the largest of their scores. *)
Definition good (l : list SearchResult) (kv : string * TicketScore.t) : Prop :=
  kv.2.(TicketScore.chunks) = filter (fun r => ticketOf r = kv.1) l
  ∧ kv.2.(TicketScore.chunks) ≠ []
  ∧ Forall (fun r => (r.(score) <= kv.2.(TicketScore.score))%Q) kv.2.(TicketScore.chunks)
  ∧ Exists (fun r => (r.(score) == kv.2.(TicketScore.score))%Q) kv.2.(TicketScore.chunks).

(** The map after the hits [l]: one entry for each ticket of [l] other
    than [ticketUid]. *)
Definition grouped (ticketUid : string) (l : list SearchResult)
    (m : JsMap.t TicketScore.t) : Prop :=
  NoDup (JsMap.keys m)
  ∧ (∀ k, k ∈ JsMap.keys m ↔ k ≠ ticketUid ∧ ∃ r, r ∈ l ∧ ticketOf r = k)
  ∧ Forall (good l) m.

(** The tickets of the hits, [ticketUid] left out, each once. *)
Definition otherTickets (ticketUid : string) (l : list SearchResult) : list string :=
  remove_dups (filter (fun uid => uid ≠ ticketUid) (map ticketOf l)).

End SimilarSpec.

(** ** Inputs of the chat examples *)

Module ChatExamples.
Import Chat.

(** Services that answer, and services whose chat model is down. *)
Definition answering : Services :=
  {| generateEmbedding := Examples.noEmbedding;
     scorer := Examples.failing;
     generateChatCompletion := fun _ => Returned "Reset the password.";
     embeddingTokens := 8; rerankTokens := 40; completionTokens := 120;
     systemPrompt := "You are a support assistant.";
     answerPrompt := "{context} {question}";
     replace := fun s _ _ => s |}.

Definition chatDown : Services :=
  {| generateEmbedding := Examples.noEmbedding;
     scorer := Examples.failing;
     generateChatCompletion :=
       fun _ => Thrown "Failed to generate chat completion: Error: timeout";
     embeddingTokens := 8; rerankTokens := 40; completionTokens := 0;
     systemPrompt := "You are a support assistant.";
     answerPrompt := "{context} {question}";
     replace := fun s _ _ => s |}.

(** The system message and ten exchanges. *)
Definition fullHistory : list ChatMessage :=
  {| role := system; content := "You are a support assistant." |}
  :: concat (repeat [{| role := user; content := "question" |};
                     {| role := assistant; content := "answer" |}] 10).

End ChatExamples.

(** * Properties *)

(** ** Stable sort *)

Section SortFacts.
Context {A : Type} (comparefn : A → A → Q) (key : A → Q) (P : A → Prop).

(** On the elements that satisfy [P] the comparator orders by [key],
    largest first. *)
Hypothesis comparefn_key : ∀ x y, P x → P y →
  Qle_bool (comparefn x y) 0 = true ↔ (key y <= key x)%Q.

Lemma sort_insert_Permutation x l : sort_insert comparefn x l ≡ₚ x :: l.
Proof.
  induction l as [|y l IH]; simpl; [done|].
  destruct (Qle_bool _ _); [done|].
  rewrite IH. apply perm_swap.
Qed.

Lemma sort_Permutation l : sort comparefn l ≡ₚ l.
Proof.
  induction l as [|x l IH]; simpl; [done|].
  unfold sort in *. rewrite sort_insert_Permutation. by rewrite IH.
Qed.

Lemma sort_length l : length (sort comparefn l) = length l.
Proof. apply Permutation_length, sort_Permutation. Qed.

Lemma sort_Forall (R : A → Prop) l : Forall R l → Forall R (sort comparefn l).
Proof. intros H. by rewrite sort_Permutation. Qed.

Lemma sort_insert_sorted x l :
  P x → Forall P l → StronglySorted (descending key) l →
  StronglySorted (descending key) (sort_insert comparefn x l).
Proof.
  intros Px HP Hs. induction Hs as [|y l Hs IH Hy]; simpl.
  - repeat constructor.
  - apply Forall_cons in HP as [Py HP].
    destruct (Qle_bool (comparefn x y) 0) eqn:E.
    + apply comparefn_key in E; [|done..].
      constructor; [by constructor|]. constructor; [done|].
      eapply Forall_impl; [exact Hy|]. unfold descending. intros z Hz.
      by apply Qle_trans with (key y).
    + constructor; [by apply IH|].
      rewrite sort_insert_Permutation. constructor; [|done].
      unfold descending. apply Qlt_le_weak, Qnot_le_lt. intros Hle.
      apply comparefn_key in Hle; [|done..]. congruence.
Qed.

Lemma sort_sorted l : Forall P l → StronglySorted (descending key) (sort comparefn l).
Proof.
  induction l as [|x l IH]; simpl; [constructor|].
  intros [Px HP]%Forall_cons. apply sort_insert_sorted; [done| |by apply IH].
  by apply sort_Forall.
Qed.

(** Elements with the same key keep their relative order. *)
Lemma sort_insert_stable q x l :
  P x → Forall P l →
  filter (fun a => Qeq_bool (key a) q) (sort_insert comparefn x l)
  = filter (fun a => Qeq_bool (key a) q) (x :: l).
Proof.
  intros Px HP. induction l as [|y l IH]; simpl; [done|].
  apply Forall_cons in HP as [Py HP].
  destruct (Qle_bool (comparefn x y) 0) eqn:E; [done|].
  rewrite filter_cons, IH, !filter_cons by done.
  destruct (decide (Qeq_bool (key x) q)) as [Hx|Hx]; [|done].
  destruct (decide (Qeq_bool (key y) q)) as [Hy|Hy]; [|done].
  exfalso. apply Is_true_true, Qeq_bool_iff in Hx. apply Is_true_true, Qeq_bool_iff in Hy.
  assert (Qle_bool (comparefn x y) 0 = true); [|congruence].
  apply comparefn_key; [done..|]. rewrite Hx, Hy. apply Qle_refl.
Qed.

Lemma sort_stable q l :
  Forall P l →
  filter (fun a => Qeq_bool (key a) q) (sort comparefn l)
  = filter (fun a => Qeq_bool (key a) q) l.
Proof.
  induction l as [|x l IH]; simpl; [done|].
  intros [Px HP]%Forall_cons. unfold sort in *.
  rewrite sort_insert_stable; [|done|by apply (sort_Forall P)].
  rewrite !filter_cons, IH by done. done.
Qed.

End SortFacts.

(** ** Insertion-ordered maps *)

Section JsMapFacts.
Context {V : Type}.
Implicit Types (m : JsMap.t V) (k : string) (v : V).

Lemma get_set_eq m k v : JsMap.get k (JsMap.set k v m) = Some v.
Proof.
  induction m as [|[k' v'] m IH]; simpl.
  - by rewrite String.eqb_refl.
  - destruct (String.eqb k k') eqn:E; simpl; rewrite ?String.eqb_refl, ?E; done.
Qed.

Lemma get_set_ne m k k' v : k ≠ k' → JsMap.get k (JsMap.set k' v m) = JsMap.get k m.
Proof.
  intros Hne. induction m as [|[k0 v0] m IH]; simpl.
  - by apply String.eqb_neq in Hne as ->.
  - destruct (String.eqb k' k0) eqn:E; simpl.
    + apply String.eqb_eq in E as <-. by apply String.eqb_neq in Hne as ->.
    + by rewrite IH.
Qed.

Lemma get_None m k : JsMap.get k m = None ↔ k ∉ JsMap.keys m.
Proof.
  induction m as [|[k' v'] m IH]; simpl.
  - split; [intros _; apply not_elem_of_nil|done].
  - rewrite not_elem_of_cons. destruct (String.eqb k k') eqn:E.
    + apply String.eqb_eq in E. split; [done|]. intros [? _]. done.
    + apply String.eqb_neq in E. rewrite IH. tauto.
Qed.

Lemma get_Some_values m k v : JsMap.get k m = Some v → v ∈ JsMap.values m.
Proof.
  induction m as [|[k' v'] m IH]; simpl; [done|].
  destruct (String.eqb k k'); [intros [= ->]; left|right; auto].
Qed.

(** How [set] acts on the iteration order. *)
Lemma keys_set m k v :
  JsMap.keys (JsMap.set k v m)
  = if decide (k ∈ JsMap.keys m) then JsMap.keys m else JsMap.keys m ++ [k].
Proof.
  induction m as [|[k' v'] m IH].
  - rewrite decide_False; [reflexivity|apply not_elem_of_nil].
  - cbn [JsMap.set]. destruct (String.eqb k k') eqn:E.
    + apply String.eqb_eq in E as ->. rewrite decide_True; [reflexivity|left].
    + apply String.eqb_neq in E.
      change (k' :: JsMap.keys (JsMap.set k v m)
              = if decide (k ∈ k' :: JsMap.keys m)
                then k' :: JsMap.keys m else (k' :: JsMap.keys m) ++ [k]).
      rewrite IH. destruct (decide (k ∈ JsMap.keys m)) as [Hin|Hin].
      * rewrite decide_True; [done|by right].
      * rewrite decide_False; [done|]. rewrite not_elem_of_cons. done.
Qed.

End JsMapFacts.

(** ** Fusion of the two result lists *)

Module FusionFacts.
Import VectorStore FusionSpec.

Lemma keyed_set m r : keyed m → keyed (JsMap.set r.(id) r m).
Proof.
  unfold keyed. induction m as [|[k v] m IH]; simpl; intros Hm.
  - by repeat constructor.
  - apply Forall_cons in Hm as [Hk Hm].
    destruct (String.eqb (id r) k); constructor; auto.
Qed.

Lemma keyed_addKeyword m r : keyed m → keyed (addKeyword m r).
Proof. intros. by apply (keyed_set m (withScore r _)). Qed.

Lemma keyed_addSemantic m r : keyed m → keyed (addSemantic m r).
Proof.
  intros. unfold addSemantic. destruct (JsMap.get _ _).
  - by apply (keyed_set m (withScore r _)).
  - by apply keyed_set.
Qed.

Lemma keyed_foldl (f : JsMap.t SearchResult → SearchResult → JsMap.t SearchResult) m l :
  (∀ m r, keyed m → keyed (f m r)) → keyed m → keyed (foldl f m l).
Proof. intros Hf. revert m. induction l; simpl; auto. Qed.

Lemma keyed_fuse kw sem : keyed (fuse kw sem).
Proof.
  unfold fuse. apply keyed_foldl; [apply keyed_addSemantic|].
  apply keyed_foldl; [apply keyed_addKeyword|]. constructor.
Qed.

Lemma keyed_ids m : keyed m → map id (JsMap.values m) = JsMap.keys m.
Proof.
  unfold keyed, JsMap.values, JsMap.keys. induction 1 as [|[k v] m Hk _ IH]; simpl in *; [done|].
  by rewrite Hk, IH.
Qed.

Lemma keys_addKeyword m r : JsMap.keys (addKeyword m r) = note_id (JsMap.keys m) r.(id).
Proof. unfold addKeyword. by rewrite keys_set. Qed.

Lemma keys_addSemantic m r : JsMap.keys (addSemantic m r) = note_id (JsMap.keys m) r.(id).
Proof. unfold addSemantic. destruct (JsMap.get _ _); by rewrite keys_set. Qed.

Lemma keys_foldl (f : JsMap.t SearchResult → SearchResult → JsMap.t SearchResult) m l :
  (∀ m r, JsMap.keys (f m r) = note_id (JsMap.keys m) r.(id)) →
  JsMap.keys (foldl f m l) = foldl note_id (JsMap.keys m) (map id l).
Proof.
  intros Hf. revert m. induction l as [|r l IH]; intros m; simpl; [done|].
  by rewrite IH, Hf.
Qed.

(** Iteration order of the fused map: lexical candidates in their
    order, then the vector candidates not yet present, in theirs. *)
Lemma keys_fuse kw sem :
  JsMap.keys (fuse kw sem) = first_occurrences (map id kw ++ map id sem).
Proof.
  unfold fuse, first_occurrences.
  rewrite (keys_foldl addSemantic) by apply keys_addSemantic.
  rewrite (keys_foldl addKeyword) by apply keys_addKeyword.
  by rewrite foldl_app.
Qed.

Lemma note_id_NoDup seen k : NoDup seen → NoDup (note_id seen k).
Proof.
  intros H. unfold note_id. case_decide; [done|].
  apply NoDup_app. split_and!; [done| |apply NoDup_singleton].
  intros x Hx ->%list_elem_of_singleton. done.
Qed.

Lemma foldl_note_id_NoDup seen l : NoDup seen → NoDup (foldl note_id seen l).
Proof. revert seen. induction l; simpl; auto using note_id_NoDup. Qed.

Lemma elem_of_foldl_note_id seen l k :
  k ∈ foldl note_id seen l ↔ k ∈ seen ∨ k ∈ l.
Proof.
  revert seen. induction l as [|x l IH]; intros seen; simpl.
  - rewrite elem_of_nil. tauto.
  - rewrite IH, elem_of_cons. unfold note_id. case_decide.
    + split; [tauto|]. intros [?|[->|?]]; auto.
    + rewrite elem_of_app, list_elem_of_singleton. tauto.
Qed.

Lemma first_occurrences_NoDup_id l : NoDup l → first_occurrences l = l.
Proof.
  unfold first_occurrences.
  enough (∀ seen, NoDup (seen ++ l) → foldl note_id seen l = seen ++ l) as H
    by (intros; by apply (H [])).
  induction l as [|x l IH]; intros seen Hnd; simpl.
  - by rewrite app_nil_r.
  - unfold note_id at 2. rewrite decide_False.
    + rewrite IH; rewrite <- app_assoc; done.
    + apply NoDup_app in Hnd as (_ & Hd & _). intros Hx. apply (Hd x Hx). left.
Qed.

(** Scores stored after the keyword pass. *)
Lemma get_foldl_addKeyword_notin m l k :
  k ∉ map id l → JsMap.get k (foldl addKeyword m l) = JsMap.get k m.
Proof.
  revert m. induction l as [|x l IH]; intros m; simpl; [done|].
  rewrite not_elem_of_cons. intros [Hne Hk]. rewrite IH by done.
  by apply get_set_ne.
Qed.

Lemma get_foldl_addKeyword_in m l r :
  NoDup (map id l) → r ∈ l →
  JsMap.get r.(id) (foldl addKeyword m l) = Some (withScore r (r.(score) * 1.2)%Q).
Proof.
  revert m. induction l as [|x l IH]; intros m; simpl; [by intros _ ?%elem_of_nil|].
  intros [Hx Hnd]%NoDup_cons [->|Hr]%elem_of_cons.
  - rewrite get_foldl_addKeyword_notin by done. apply get_set_eq.
  - by apply IH.
Qed.

(** Scores stored after the semantic pass. *)
Lemma get_addSemantic_ne m r k :
  k ≠ r.(id) → JsMap.get k (addSemantic m r) = JsMap.get k m.
Proof.
  intros Hne. unfold addSemantic. destruct (JsMap.get (id r) m); by apply get_set_ne.
Qed.

Lemma get_foldl_addSemantic_notin m l k :
  k ∉ map id l → JsMap.get k (foldl addSemantic m l) = JsMap.get k m.
Proof.
  revert m. induction l as [|x l IH]; intros m; simpl; [done|].
  rewrite not_elem_of_cons. intros [Hne Hk]. rewrite IH by done.
  by apply get_addSemantic_ne.
Qed.

Lemma get_foldl_addSemantic_in m l r :
  NoDup (map id l) → r ∈ l →
  JsMap.get r.(id) (foldl addSemantic m l)
  = Some match JsMap.get r.(id) m with
         | Some existing => withScore r ((existing.(score) + r.(score)) / 2)%Q
         | None => r
         end.
Proof.
  revert m. induction l as [|x l IH]; intros m; simpl; [by intros _ ?%elem_of_nil|].
  intros [Hx Hnd]%NoDup_cons [->|Hr]%elem_of_cons.
  - rewrite get_foldl_addSemantic_notin by done.
    unfold addSemantic. destruct (JsMap.get (id x) m); apply get_set_eq.
  - rewrite IH by done. rewrite get_addSemantic_ne; [done|].
    intros Heq. apply Hx. rewrite <- Heq. by apply list_elem_of_fmap_2.
Qed.

End FusionFacts.

(** ** Hybrid retrieval *)

Section HybridSearch.
Import VectorStore FusionSpec FusionFacts.

Lemma byScoreDesc_key x y :
  Qle_bool (byScoreDesc x y) 0 = true ↔ (y.(score) <= x.(score))%Q.
Proof.
  unfold byScoreDesc. rewrite Qle_bool_iff.
  rewrite (Qle_minus_iff (score y) (score x)), (Qle_minus_iff (score y - score x) 0).
  assert ((0 + - (score y - score x)) == (score x + - score y))%Q as -> by ring.
  reflexivity.
Qed.

Lemma Forall_True {A} (l : list A) : Forall (fun _ => True) l.
Proof. by apply Forall_forall. Qed.

Lemma ranked_Permutation kw sem : ranked kw sem ≡ₚ JsMap.values (fuse kw sem).
Proof. apply sort_Permutation. Qed.

Lemma ids_ranked kw sem :
  map id (ranked kw sem) ≡ₚ first_occurrences (map id kw ++ map id sem).
Proof.
  rewrite <- keys_fuse, <- (keyed_ids _ (keyed_fuse kw sem)).
  apply Permutation_map, ranked_Permutation.
Qed.

Lemma get_fuse_ranked kw sem k r :
  JsMap.get k (fuse kw sem) = Some r → r ∈ ranked kw sem.
Proof. intros H. rewrite ranked_Permutation. by eapply get_Some_values. Qed.

Lemma fuse_both kw sem l v :
  NoDup (map id kw) → NoDup (map id sem) → l ∈ kw → v ∈ sem → l.(id) = v.(id) →
  JsMap.get v.(id) (fuse kw sem)
  = Some (withScore v ((l.(score) * 1.2 + v.(score)) / 2)%Q).
Proof.
  intros Hkw Hsem Hl Hv Hid. unfold fuse.
  rewrite get_foldl_addSemantic_in by done.
  rewrite <- Hid at 1. by rewrite get_foldl_addKeyword_in.
Qed.

Lemma fuse_keyword_only kw sem l :
  NoDup (map id kw) → l ∈ kw → l.(id) ∉ map id sem →
  JsMap.get l.(id) (fuse kw sem) = Some (withScore l (l.(score) * 1.2)%Q).
Proof.
  intros Hkw Hl Hn. unfold fuse.
  rewrite get_foldl_addSemantic_notin by done.
  by apply get_foldl_addKeyword_in.
Qed.

Lemma fuse_semantic_only kw sem v :
  NoDup (map id sem) → v ∈ sem → v.(id) ∉ map id kw →
  JsMap.get v.(id) (fuse kw sem) = Some v.
Proof.
  intros Hsem Hv Hn. unfold fuse.
  rewrite get_foldl_addSemantic_in by done.
  by rewrite get_foldl_addKeyword_notin.
Qed.

Lemma ranked_sorted kw sem :
  StronglySorted (fun a b => (b.(score) <= a.(score))%Q) (ranked kw sem).
Proof.
  apply (sort_sorted byScoreDesc score (fun _ => True)
           (fun x y _ _ => byScoreDesc_key x y)), Forall_True.
Qed.

Lemma ranked_stable kw sem q :
  filter (tied q) (ranked kw sem) = filter (tied q) (JsMap.values (fuse kw sem)).
Proof.
  apply (sort_stable byScoreDesc score (fun _ => True)
           (fun x y _ _ => byScoreDesc_key x y)), Forall_True.
Qed.

End HybridSearch.

Section HybridSearchClaims.
Import VectorStore FusionSpec FusionFacts Selector.

Lemma hybridSearch_ranked e query emb ktk stk :
  hybridSearch e query emb ktk stk
  = ranked (metaKeywordSearch e query ktk) (semanticSearch e emb stk None).
Proof. by destruct ktk, stk. Qed.



End HybridSearchClaims.

(** ** Diversity filter *)

Module DiversityFacts.
Import Reranker DiversitySpec.

Lemma belowHalf_spec n topK : belowHalf n topK = true ↔ 2 * Z.of_nat n < topK.
Proof.
  unfold belowHalf. rewrite negb_true_iff, <- not_true_iff_false, Qle_bool_iff.
  unfold Qle, Qdiv, Qmult, Qinv, inject_Z. simpl. lia.
Qed.

Lemma ceil_half topK : Qceiling (inject_Z topK / 2) = (topK + 1) / 2.
Proof.
  unfold Qceiling, Qfloor, Qopp, Qdiv, Qmult, Qinv, inject_Z. simpl.
  change (Z.pos (1 * 2)) with 2. rewrite Z.mul_1_r.
  Z.div_mod_to_equations. lia.
Qed.

Lemma diversityStep_tracked topK st r : tracked st → tracked (diversityStep topK st r).
Proof.
  destruct st as [d s]. unfold tracked, diversityStep. simpl. intros ->.
  case_decide as Hin.
  - destruct (belowHalf _ _); simpl; [|done].
    rewrite map_app, list_to_set_app_L. simpl. rewrite (right_id_L ∅ (∪)).
    rewrite (comm_L (∪)). symmetry. apply subseteq_union_1_L.
    by apply singleton_subseteq_l.
  - simpl. rewrite map_app, list_to_set_app_L. simpl. by rewrite (right_id_L ∅ (∪)).
Qed.

(** The step in terms of the accepted results alone. *)
Lemma diversityStep_fst topK st r :
  tracked st →
  (diversityStep topK st r).1
  = if decide (source r ∈ map source st.1) then
      if decide (2 * len st.1 < topK) then st.1 ++ [r] else st.1
    else st.1 ++ [r].
Proof.
  destruct st as [d s]. unfold tracked, diversityStep. simpl. intros ->.
  fold (source r). destruct (decide (source r ∈ map source d)) as [Hin|Hin].
  - rewrite decide_True by (by apply elem_of_list_to_set).
    destruct (belowHalf (length d) topK) eqn:E.
    + apply belowHalf_spec in E. by rewrite decide_True.
    + apply not_true_iff_false in E. rewrite belowHalf_spec in E. by rewrite decide_False.
  - rewrite decide_False; [done|]. by rewrite elem_of_list_to_set.
Qed.

Lemma diversityLoop_tracked topK l st : tracked st → tracked (diversityLoop topK l st).
Proof.
  revert st. induction l as [|r l IH]; intros st Hst; simpl; [done|].
  destruct (topK <=? _); [|apply IH]; by apply diversityStep_tracked.
Qed.

Lemma diversityStep_grows topK st r :
  (diversityStep topK st r).1 = st.1 ∨ (diversityStep topK st r).1 = st.1 ++ [r].
Proof.
  destruct st as [d s]. unfold diversityStep.
  case_decide; [destruct (belowHalf _ _)|]; simpl; auto.
Qed.

(** The walk only appends, and what it appends is taken from the list
    in order. *)
Lemma diversityLoop_sublist topK l st :
  ∃ l', (diversityLoop topK l st).1 = st.1 ++ l' ∧ l' `sublist_of` l.
Proof.
  revert st. induction l as [|r l IH]; intros st; simpl.
  - exists []. by rewrite app_nil_r.
  - destruct (diversityStep_grows topK st r) as [Hs|Hs].
    + destruct (topK <=? _).
      * exists []. rewrite Hs, app_nil_r. split; [done|apply sublist_nil_l].
      * destruct (IH (diversityStep topK st r)) as (l' & -> & Hl').
        exists l'. rewrite Hs. split; [done|by apply sublist_cons].
    + destruct (topK <=? _).
      * exists [r]. rewrite Hs. split; [done|]. apply sublist_skip, sublist_nil_l.
      * destruct (IH (diversityStep topK st r)) as (l' & -> & Hl').
        exists (r :: l'). rewrite Hs, <- app_assoc. split; [done|by apply sublist_skip].
Qed.

Lemma diversityLoop_snoc topK pre r st :
  len (diversityLoop topK pre st).1 < topK →
  diversityLoop topK (pre ++ [r]) st = diversityStep topK (diversityLoop topK pre st) r.
Proof.
  revert st. induction pre as [|x pre IH]; intros st; simpl.
  - intros _. by destruct (topK <=? _).
  - destruct (topK <=? len (diversityStep topK st x).1) eqn:E; [|apply IH].
    apply Z.leb_le in E. lia.
Qed.

Lemma diversityLoop_stopped topK pre r st :
  pre ≠ [] → topK ≤ len (diversityLoop topK pre st).1 →
  diversityLoop topK (pre ++ [r]) st = diversityLoop topK pre st.
Proof.
  revert st. induction pre as [|x pre IH]; intros st Hne; simpl; [done|].
  destruct (topK <=? len (diversityStep topK st x).1) eqn:E; [done|].
  destruct pre as [|y pre]; simpl.
  - apply Z.leb_gt in E. lia.
  - intros H. by apply IH.
Qed.

Lemma diversityLoop_length topK l st :
  len st.1 < topK → len (diversityLoop topK l st).1 ≤ topK.
Proof.
  revert st. induction l as [|r l IH]; intros st Hst; simpl; [lia|].
  destruct (topK <=? len (diversityStep topK st r).1) eqn:E.
  - destruct (diversityStep_grows topK st r) as [->| ->]; [lia|].
    unfold len in *. rewrite length_app. simpl. lia.
  - apply IH. by apply Z.leb_gt in E.
Qed.

Lemma fromSource_le_length uid l : (fromSource uid l ≤ length l)%nat.
Proof. apply length_filter. Qed.

Lemma diversityStep_cap topK st r uid :
  1 ≤ topK → tracked st →
  Z.of_nat (fromSource uid st.1) ≤ (topK + 1) / 2 →
  Z.of_nat (fromSource uid (diversityStep topK st r).1) ≤ (topK + 1) / 2.
Proof.
  intros HK Hst Hc. rewrite diversityStep_fst by done.
  destruct (decide (source r ∈ map source st.1)) as [Hin|Hin].
  - case_decide as Hh; [|done].
    pose proof (fromSource_le_length uid (st.1 ++ [r])) as Hl.
    rewrite length_app in Hl. simpl in Hl. unfold len in Hh.
    Z.div_mod_to_equations. lia.
  - unfold fromSource in *. rewrite filter_app, length_app.
    destruct (decide (source r = uid)) as [Heq|Hne].
    + rewrite filter_cons_True by done. simpl.
      assert (filter (fun r => source r = uid) st.1 = []) as ->;
        [|simpl; Z.div_mod_to_equations; lia].
      apply elem_of_nil_inv. intros x [Hsx Hx]%list_elem_of_filter. apply Hin.
      rewrite <- Heq in Hsx. rewrite <- Hsx. by apply list_elem_of_fmap_2.
    + rewrite filter_cons_False by done. simpl. lia.
Qed.

Lemma diversityLoop_cap topK l st uid :
  1 ≤ topK → tracked st →
  Z.of_nat (fromSource uid st.1) ≤ (topK + 1) / 2 →
  Z.of_nat (fromSource uid (diversityLoop topK l st).1) ≤ (topK + 1) / 2.
Proof.
  intros HK. revert st. induction l as [|r l IH]; intros st Hst Hc; simpl; [done|].
  destruct (topK <=? _); [|apply IH]; auto using diversityStep_cap, diversityStep_tracked.
Qed.

End DiversityFacts.

(** ** Base rerank *)

Module RerankFacts.
Import OpenAI Reranker DiversitySpec DiversityFacts RerankSpec.

Lemma slice_0_take {A} (l : list A) n : 0 ≤ n → slice l 0 n = take (Z.to_nat n) l.
Proof.
  intros Hn. unfold slice, len. simpl.
  rewrite (proj2 (Z.ltb_ge n 0)) by done. rewrite (Z.min_l 0) by lia. simpl.
  rewrite Z.sub_0_r. destruct (Z.min_spec n (Z.of_nat (length l))) as [[? ->]|[? ->]]; [done|].
  change (drop (Z.to_nat 0) l) with l. rewrite Nat2Z.id, !firstn_all2; [done|lia..].
Qed.

Lemma slice_0_full {A} (l : list A) n : len l ≤ n → slice l 0 n = l.
Proof.
  intros Hn. unfold len in Hn. rewrite slice_0_take by lia.
  apply firstn_all2. lia.
Qed.

Lemma slice_map {A B} (g : A → B) (l : list A) a b :
  map g (slice l a b) = slice (map g l) a b.
Proof. unfold slice, len. by rewrite length_map, skipn_map, firstn_map. Qed.

Lemma rerankChunks_returns config scorer query chunks :
  config.(Config.apiKey) ≠ "" →
  rerankChunks config scorer query chunks
  = Returned (scoresOf (scorer query chunks) chunks).
Proof.
  intros Hk. unfold rerankChunks, getOpenAIClient.
  apply String.eqb_neq in Hk as ->. simpl. by destruct (scorer query chunks).
Qed.

Lemma rerankWithOpenAI_returns config scorer query results topK :
  config.(Config.apiKey) ≠ "" → results ≠ [] →
  rerankWithOpenAI config scorer query results topK
  = Returned (slice (sort byRerankScoreDesc
                       (scored (scoresOf (scorer query (map text results))
                                         (map text results)) results))
                    0 (default config.(Config.retrieval).(Config.rerankTopK) topK)).
Proof.
  intros Hk Hne. unfold rerankWithOpenAI. destruct results as [|r results]; [done|].
  cbn [length Nat.eqb]. by rewrite rerankChunks_returns.
Qed.

Lemma scored_ids rerankScores results :
  map rid (scored rerankScores results) = map id results.
Proof.
  apply list_eq. intros i. unfold scored.
  change (map rid ?l) with (rid <$> l). change (map id ?l) with (id <$> l).
  rewrite !list_lookup_fmap, list_lookup_imap. by destruct (results !! i).
Qed.

Lemma scored_scores rerankScores results q :
  Forall (fun s => s = q) rerankScores →
  (length results ≤ length rerankScores)%nat →
  Forall (fun r => r.(rscore) = Some q) (scored rerankScores results).
Proof.
  intros Hall Hlen. apply Forall_lookup. intros i r. unfold scored.
  rewrite list_lookup_imap. destruct (results !! i) as [x|] eqn:E; [|done].
  intros [= <-]. simpl. apply lookup_lt_Some in E.
  destruct (lookup_lt_is_Some_2 rerankScores i) as [s Hs]; [lia|].
  rewrite Hs. f_equal. by eapply (proj1 (Forall_lookup _ _) Hall).
Qed.

Lemma scored_hasScore rerankScores results :
  (length results ≤ length rerankScores)%nat →
  Forall hasScore (scored rerankScores results).
Proof.
  intros Hlen. apply Forall_lookup. intros i r. unfold scored.
  rewrite list_lookup_imap. destruct (results !! i) as [x|] eqn:E; [|done].
  intros [= <-]. unfold hasScore. simpl. apply lookup_lt_Some in E.
  apply lookup_lt_is_Some_2. lia.
Qed.

Lemma scoresOf_length reply chunks :
  match reply with
  | ScoresParsed scores => (length chunks ≤ length scores)%nat
  | ScoringFailed => True
  end →
  (length chunks ≤ length (scoresOf reply chunks))%nat.
Proof. destruct reply; simpl; rewrite length_map; lia. Qed.

Lemma byRerankScoreDesc_key x y :
  hasScore x → hasScore y →
  Qle_bool (byRerankScoreDesc x y) 0 = true ↔ (scoreKey y <= scoreKey x)%Q.
Proof.
  unfold hasScore, scoreKey, byRerankScoreDesc. intros [sx ->] [sy ->]. simpl.
  rewrite Qle_bool_iff.
  rewrite (Qle_minus_iff sy sx), (Qle_minus_iff (sy - sx) 0).
  assert ((0 + - (sy - sx)) == (sx + - sy))%Q as -> by ring.
  reflexivity.
Qed.

(** A list whose elements all compare as equal is left as it is. *)
Lemma sort_ties {A} (comparefn : A → A → Q) (l : list A) :
  (∀ x y, x ∈ l → y ∈ l → Qle_bool (comparefn x y) 0 = true) →
  sort comparefn l = l.
Proof.
  induction l as [|x l IH]; intros H; [done|].
  unfold sort in *. simpl. rewrite IH.
  - destruct l as [|y l]; [done|]. simpl. rewrite H; [done|left|right; left].
  - intros a b Ha Hb. apply H; by right.
Qed.

Lemma StronglySorted_sublist {A} (R : A → A → Prop) (l k : list A) :
  StronglySorted R l → k `sublist_of` l → StronglySorted R k.
Proof.
  intros Hs Hsub. induction Hsub as [|x k l Hsub IH|x k l Hsub IH].
  - constructor.
  - apply StronglySorted_inv in Hs as [Hs Hx]. constructor; [by apply IH|].
    apply Forall_forall. intros y Hy. eapply (proj1 (Forall_forall _ _) Hx).
    by eapply elem_of_sublist.
  - apply StronglySorted_inv in Hs as [Hs _]. by apply IH.
Qed.

End RerankFacts.

Section DiversityClaims.
Import OpenAI Reranker DiversitySpec DiversityFacts RerankSpec RerankFacts.

Lemma rerankWithOpenAI_total config scorer query results topK :
  config.(Config.apiKey) ≠ "" →
  ∃ reranked, rerankWithOpenAI config scorer query results topK = Returned reranked.
Proof.
  intros Hk. destruct results as [|r results]; [by exists []|].
  rewrite rerankWithOpenAI_returns by done. eauto.
Qed.

Lemma rerankWithDiversity_walks config scorer query results topK reranked :
  rerankWithOpenAI config scorer query results (Some (len results)) = Returned reranked →
  rerankWithDiversity config scorer query results topK
  = Returned (diverse (default config.(Config.retrieval).(Config.rerankTopK) topK) reranked).
Proof.
  unfold rerankWithDiversity. destruct results as [|r results].
  - by intros [= <-].
  - cbn [length Nat.eqb]. by intros ->.
Qed.

Lemma diverse_tracked topK l : tracked (diversityLoop topK l ([], ∅)).
Proof. apply diversityLoop_tracked. unfold tracked. simpl. set_solver. Qed.


End DiversityClaims.

Section DiversityExamples.
Import OpenAI Reranker DiversitySpec DiversityFacts RerankSpec RerankFacts Examples.

(** Budget 4 over three passages of ticket A and one of ticket B: the
    third passage of A is skipped. *)
Example rerankWithDiversity_budget_4 :
  rerankWithDiversity cfg (grading [9; 8; 7; 6]%Q) "q" fourHits (Some 4)
  = Returned (diverse 4 (scored [0.9; 0.8; 0.7; 0.6]%Q fourHits))
  ∧ map rid (diverse 4 (scored [0.9; 0.8; 0.7; 0.6]%Q fourHits)) = ["a1"; "a2"; "b1"].
Proof. split; vm_compute; reflexivity. Qed.



End DiversityExamples.

Section RerankClaims.
Import OpenAI Reranker DiversitySpec DiversityFacts RerankSpec RerankFacts VectorStore FusionSpec.

Lemma slice_nil {A} a b : slice (@nil A) a b = [].
Proof. unfold slice. by rewrite skipn_nil, firstn_nil. Qed.

Lemma slice_Forall {A} (R : A → Prop) (l : list A) a b :
  Forall R l → Forall R (slice l a b).
Proof. intros H. unfold slice. by apply Forall_take, Forall_drop. Qed.

Lemma sort_fallback_scores (l : list RerankResult) q :
  Forall (fun r => r.(rscore) = Some q) l → sort byRerankScoreDesc l = l.
Proof.
  intros H. apply sort_ties. intros x y Hx Hy.
  rewrite Forall_forall in H. unfold byRerankScoreDesc.
  rewrite (H x Hx), (H y Hy). apply Qle_bool_iff.
  apply Qle_minus_iff. ring_simplify. apply Qle_refl.
Qed.

(** C5, amended. When the scoring call fails, [rerankChunks] returns one
    score 0.5 per candidate and [rerankWithOpenAI] returns, without an
    error, the candidates in their input order cut to [topK], each with
    score 0.5: all of them only when [topK] is at least their number. *)
Theorem rerankWithOpenAI_fallback config scorer query results topK :
  let K := default config.(Config.retrieval).(Config.rerankTopK) topK in
  config.(Config.apiKey) ≠ "" →
  scorer query (map text results) = ScoringFailed →
  (∃ scores,
     rerankChunks config scorer query (map text results) = Returned scores
     ∧ length scores = length results ∧ Forall (fun s => s = 0.5%Q) scores)
  ∧ ∃ out,
      rerankWithOpenAI config scorer query results topK = Returned out
      ∧ Forall (fun r => r.(rscore) = Some 0.5%Q) out
      ∧ map rid out = map id (slice results 0 K)
      ∧ (0 ≤ K → len out = Z.min K (len results))
      ∧ (len results ≤ K → length out = length results).
Proof.
  intros K Hk Hfail. split.
  - exists (map (fun _ => 0.5%Q) (map text results)).
    rewrite rerankChunks_returns, Hfail by done. split_and!; [done| |].
    + by rewrite !length_map.
    + apply Forall_forall. by intros s (t & -> & _)%list_elem_of_fmap.
  - destruct (decide (results = [])) as [->|Hne].
    { exists []. rewrite slice_nil. split_and!; try done. unfold len. simpl. lia. }
    rewrite rerankWithOpenAI_returns, Hfail by done. fold K. simpl scoresOf.
    set (X := scored _ results).
    assert (Forall (fun r => r.(rscore) = Some 0.5%Q) X) as HX.
    { apply scored_scores.
      - apply Forall_forall. by intros s (t & -> & _)%list_elem_of_fmap.
      - by rewrite !length_map. }
    rewrite (sort_fallback_scores X 0.5) by done.
    exists (slice X 0 K). split_and!; [done|by apply slice_Forall| | |].
    + rewrite slice_map. unfold X. by rewrite scored_ids, slice_map.
    + intros HK. rewrite slice_0_take by done. unfold len, X, scored.
      rewrite length_take, length_imap. lia.
    + intros HK. rewrite slice_0_full; unfold len, X, scored in *;
        rewrite length_imap; [done|lia].
Qed.

Lemma descending_scoresAtLeast (l : list RerankResult) :
  Forall hasScore l → StronglySorted (descending scoreKey) l →
  StronglySorted scoresAtLeast l.
Proof.
  intros HP Hs. induction Hs as [|x l Hs IH Hx]; [constructor|].
  apply Forall_cons in HP as [Px HP]. constructor; [by apply IH|].
  rewrite Forall_forall in Hx, HP. apply Forall_forall. intros y Hy.
  specialize (Hx y Hy). specialize (HP y Hy).
  unfold descending, scoreKey, scoresAtLeast, hasScore in *.
  destruct Px as [sx Ex], HP as [sy Ey]. rewrite Ex, Ey in *. exact Hx.
Qed.

Lemma diverse_head topK r rest : head (diverse topK (r :: rest)) = Some r.
Proof.
  unfold diverse. cbn [diversityLoop].
  set (st' := diversityStep topK ([], ∅) r).
  assert (st'.1 = [r]) as H1.
  { unfold st'. rewrite diversityStep_fst by (unfold tracked; simpl; set_solver).
    rewrite decide_False; [done|]. simpl. apply not_elem_of_nil. }
  destruct (topK <=? len st'.1); [by rewrite H1|].
  destruct (diversityLoop_sublist topK rest st') as (l' & -> & _). by rewrite H1.
Qed.


(** C10. [rerankByScore] leaves the caller's array sorted by score,
    largest first and ties in their former order, touches no other array,
    and returns new records for the leading [topK] entries of the sorted
    array. *)
Theorem rerankByScore_in_place config results topK (h : heap) arr :
  let K := default config.(Config.retrieval).(Config.rerankTopK) topK in
  h !! results = Some arr →
  ∃ out sorted h',
    rerankByScore config results topK h = Some (out, h')
    ∧ h' !! results = Some sorted
    ∧ (∀ other, other ≠ results → h' !! other = h !! other)
    ∧ sorted ≡ₚ arr
    ∧ StronglySorted (fun a b => (b.(score) <= a.(score))%Q) sorted
    ∧ (∀ q, filter (tied q) sorted = filter (tied q) arr)
    ∧ map rid out = map id (slice sorted 0 K)
    ∧ map rscore out = map (fun r => Some r.(score)) (slice sorted 0 K)
    ∧ map originalIndex out = seq 0 (length out).
Proof.
  intros K Harr. unfold rerankByScore. rewrite Harr. fold K.
  set (sorted := sort byScoreDesc arr).
  eexists _, sorted, _. split_and!; [reflexivity|..].
  - apply lookup_insert_eq.
  - intros other Hne. by apply lookup_insert_ne.
  - apply sort_Permutation.
  - apply (sort_sorted byScoreDesc score (fun _ => True)
             (fun x y _ _ => byScoreDesc_key x y)), Forall_True.
  - intros q.
    apply (sort_stable byScoreDesc score (fun _ => True)
             (fun x y _ _ => byScoreDesc_key x y)), Forall_True.
  - apply list_eq. intros i.
    change (map rid ?l) with (rid <$> l). change (map id ?l) with (id <$> l).
    rewrite !list_lookup_fmap, list_lookup_imap. by destruct (_ !! i).
  - apply list_eq. intros i.
    change (map rscore ?l) with (rscore <$> l).
    change (map ?f (slice sorted 0 K)) with (f <$> slice sorted 0 K).
    rewrite !list_lookup_fmap, list_lookup_imap. by destruct (_ !! i).
  - rewrite length_imap. generalize (slice sorted 0 K). intros l.
    apply list_eq. intros i. change (map originalIndex ?l) with (originalIndex <$> l).
    rewrite list_lookup_fmap, list_lookup_imap.
    destruct (l !! i) eqn:E; simpl.
    + symmetry. apply lookup_seq. split; [done|]. by eapply lookup_lt_Some.
    + symmetry. apply lookup_seq_ge. by apply lookup_ge_None.
Qed.

End RerankClaims.

Section RerankExamples.
Import OpenAI Reranker DiversitySpec DiversityFacts RerankSpec RerankFacts VectorStore Examples.

(** Four candidates, a failing scorer and [topK = 2]. *)
Lemma rerankWithOpenAI_fallback_witness :
  Config.apiKey cfg ≠ ""
  ∧ failing "q" (map text fourHits) = ScoringFailed
  ∧ ∃ out,
      rerankWithOpenAI cfg failing "q" fourHits (Some 2) = Returned out
      ∧ Forall (fun r => r.(rscore) = Some 0.5%Q) out
      ∧ map rid out = map id (slice fourHits 0 2)
      ∧ len out = 2.
Proof.
  assert (Config.apiKey cfg ≠ "") as Hk by done.
  assert (failing "q" (map text fourHits) = ScoringFailed) as Hf by reflexivity.
  destruct (rerankWithOpenAI_fallback cfg failing "q" fourHits (Some 2) Hk Hf)
    as (_ & out & Hout & Hall & Hids & Hlen & _).
  split_and!; [done|done|]. exists out. split_and!; [done..|].
  rewrite Hlen; [reflexivity|]. simpl. lia.
Defined.

(** Counterexample to C5, with [topK] smaller than the number of
    candidates: four candidates and [topK = 2] give two results. *)
Lemma rerankWithOpenAI_fallback_truncates :
  ∃ out,
    rerankWithOpenAI cfg failing "q" fourHits (Some 2) = Returned out
    ∧ length out = 2%nat ∧ length fourHits = 4%nat
    ∧ length out ≠ length fourHits.
Proof. eexists. split_and!; [vm_compute; reflexivity..|]. vm_compute. discriminate. Qed.


Example rerankWithDiversity_order_example :
  ∃ out,
    rerankWithDiversity cfg (grading [6; 9; 7; 8]%Q) "q" fourHits None = Returned out
    ∧ map rid out = ["a2"; "b1"; "a3"]
    ∧ map rscore out = [Some (9 / 10); Some (8 / 10); Some (7 / 10)]%Q.
Proof. eexists. split_and!; vm_compute; reflexivity. Qed.

(** An array of two candidates in ascending order of score. *)
Lemma rerankByScore_in_place_witness :
  unsortedHeap !! 1%positive = Some [hit "a" "A" 0.2; hit "b" "B" 0.9]
  ∧ ∃ out sorted h',
      rerankByScore cfg 1%positive None unsortedHeap = Some (out, h')
      ∧ h' !! 1%positive = Some sorted
      ∧ sorted ≡ₚ [hit "a" "A" 0.2; hit "b" "B" 0.9]
      ∧ StronglySorted (fun a b => (b.(score) <= a.(score))%Q) sorted.
Proof.
  assert (unsortedHeap !! 1%positive = Some [hit "a" "A" 0.2; hit "b" "B" 0.9]) as Harr
    by reflexivity.
  destruct (rerankByScore_in_place cfg 1%positive None unsortedHeap _ Harr)
    as (out & sorted & h' & Hrun & Hh' & _ & Hperm & Hsorted & _).
  split; [done|]. exists out, sorted, h'. split_and!; assumption.
Defined.

(** The caller's array after the call, in the example above. *)
Example rerankByScore_reorders :
  ∃ out h',
    rerankByScore cfg 1%positive None unsortedHeap = Some (out, h')
    ∧ h' !! 1%positive = Some [hit "b" "B" 0.9; hit "a" "A" 0.2]
    ∧ map rid out = ["b"; "a"].
Proof. eexists _, _. split_and!; vm_compute; reflexivity. Qed.

End RerankExamples.

Section RetrievalClaims.
Import VectorStore FusionSpec FusionFacts Selector Examples.

Lemma semanticSearch_floor e emb stk r :
  r ∈ semanticSearch e emb stk None → (0.5 <= r.(score))%Q.
Proof.
  unfold semanticSearch. intros [H _]%list_elem_of_filter.
  by apply Is_true_true, Qle_bool_iff in H.
Qed.





Example hybridSearch_login :
  map id (hybridSearch loginEngine "login" [] None None) = ["p1"; "p2"]
  ∧ Forall2 Qeq (map score (hybridSearch loginEngine "login" [] None None))
                [0.76; 0.7]%Q.
Proof. split; vm_compute; [reflexivity|repeat constructor]. Qed.


End RetrievalClaims.

(** ** Chunker *)

Module ChunkerFacts.
Import Chunker ChunkerSpec.

Lemma slice_take_drop {A} (l : list A) a b :
  0 ≤ a → 0 ≤ b → slice l a b = take (Z.to_nat (b - a)) (drop (Z.to_nat a) l).
Proof.
  intros Ha Hb. unfold slice, len.
  rewrite (proj2 (Z.ltb_ge a 0)), (proj2 (Z.ltb_ge b 0)) by done.
  destruct (Z.le_gt_cases a (Z.of_nat (length l))) as [Hal|Hal].
  - rewrite (Z.min_l a) by done.
    destruct (Z.le_gt_cases b (Z.of_nat (length l))) as [Hbl|Hbl].
    + by rewrite (Z.min_l b).
    + rewrite (Z.min_r b) by lia.
      rewrite !take_ge; [done|rewrite length_drop; lia..].
  - rewrite (Z.min_r a) by lia. rewrite Nat2Z.id.
    rewrite !drop_ge by lia. by rewrite !take_nil.
Qed.

Lemma slice_min {A} (l : list A) a b :
  0 ≤ a → 0 ≤ b → slice l a (Z.min b (len l)) = slice l a b.
Proof.
  intros Ha Hb. rewrite !slice_take_drop by (unfold len; lia).
  destruct (Z.le_gt_cases b (len l)); [by rewrite Z.min_l|].
  rewrite Z.min_r by lia. unfold len in *.
  rewrite !take_ge; [done|rewrite length_drop; lia..].
Qed.

Lemma windows_cons n words size step start :
  windows (S n) words size step start
  = slice words start (start + size) :: windows n words size step (start + step).
Proof.
  unfold windows. rewrite <- cons_seq. cbn [map]. f_equal.
  - f_equal; lia.
  - rewrite <- fmap_S_seq. change (map ?f (S <$> ?l)) with (map f (map S l)).
    rewrite map_map. apply map_ext. intros j. f_equal; lia.
Qed.

Lemma windows_lookup n words size step start (j : nat) :
  (j < n)%nat →
  windows n words size step start !! j
  = Some (slice words (start + Z.of_nat j * step) (start + Z.of_nat j * step + size)).
Proof.
  intros Hj. unfold windows. change (map ?f ?l) with (f <$> l).
  rewrite list_lookup_fmap, lookup_seq_lt by done. done.
Qed.

Lemma emit_snoc floor wins w :
  emit floor (wins ++ [w])
  = if floor <=? Z.of_nat (String.length (join " " w))
    then emit floor wins ++ [join " " w] else emit floor wins.
Proof.
  unfold emit. rewrite map_app, filter_app. cbn [map].
  destruct (floor <=? _) eqn:E.
  - apply Z.leb_le in E. by rewrite filter_cons_True.
  - apply Z.leb_gt in E. rewrite filter_cons_False by lia. by rewrite app_nil_r.
Qed.

(** The chunk loop emits the windows of the window loop. *)
Lemma chunk_loop_windows fuel words chunkSize overlap floor start wins :
  chunk_loop fuel words chunkSize overlap floor start (emit floor wins)
  = emit floor <$> window_loop fuel words chunkSize overlap start wins.
Proof.
  revert start wins. induction fuel as [|fuel IH]; intros start wins; simpl.
  - by destruct (start <? len words).
  - destruct (start <? len words); [|done].
    rewrite <- emit_snoc. destruct (_ =? len words); [done|]. apply IH.
Qed.

(** The loop ends for every chunk size and overlap. *)
Lemma window_loop_total fuel words chunkSize overlap start wins :
  len words - start ≤ Z.of_nat fuel →
  is_Some (window_loop fuel words chunkSize overlap start wins).
Proof.
  revert start wins. induction fuel as [|fuel IH]; intros start wins Hf; simpl.
  - destruct (start <? len words) eqn:E; [|done]. apply Z.ltb_lt in E. lia.
  - destruct (start <? len words) eqn:E; [|done].
    destruct (_ =? len words); [done|]. apply IH. lia.
Qed.

Lemma window_loop_spec fuel words chunkSize overlap start wins :
  1 ≤ chunkSize → 0 ≤ overlap → 0 ≤ start < len words →
  len words - start ≤ Z.of_nat fuel →
  let step := Z.max 1 (chunkSize - overlap) in
  ∃ n : nat,
    window_loop fuel words chunkSize overlap start wins
    = Some (wins ++ windows (S n) words chunkSize step start)
    ∧ len words ≤ start + Z.of_nat n * step + chunkSize
    ∧ ∀ j : nat, (j < n)%nat → start + Z.of_nat j * step + chunkSize < len words.
Proof.
  intros HS HO Hstart Hfuel step.
  revert start wins Hstart Hfuel. induction fuel as [|fuel IH]; intros start wins Hstart Hfuel.
  { lia. }
  simpl. rewrite (proj2 (Z.ltb_lt start (len words))) by lia.
  rewrite slice_min by lia.
  destruct (_ =? len words) eqn:E.
  - apply Z.eqb_eq in E. exists 0%nat. split_and!.
    + by rewrite windows_cons.
    + lia.
    + lia.
  - apply Z.eqb_neq in E. fold step.
    destruct (IH (start + step) (wins ++ [slice words start (start + chunkSize)]))
      as (n & Hn & Hlast & Hbefore); [lia..|].
    exists (S n). split_and!.
    + rewrite Hn, (windows_cons (S n)), <- app_assoc. reflexivity.
    + lia.
    + intros [|j] Hj; [lia|]. specialize (Hbefore j). lia.
Qed.

End ChunkerFacts.

Module CoverageFacts.
Import Chunker ChunkerSpec ChunkerFacts.

Lemma filter_all {A} (P : A → Prop) `{∀ x, Decision (P x)} (l : list A) :
  Forall P l → filter P l = l.
Proof.
  induction 1 as [|x l Hx Hl IH]; [done|]. by rewrite filter_cons_True, IH.
Qed.

Lemma slice_lookup {A} (l : list A) a b i :
  0 ≤ a ≤ i → i < b → slice l a b !! Z.to_nat (i - a) = l !! Z.to_nat i.
Proof.
  intros Ha Hb. rewrite slice_take_drop by lia.
  rewrite lookup_take_lt by lia. rewrite lookup_drop. f_equal. lia.
Qed.

Lemma slice_length {A} (l : list A) a b :
  0 ≤ a ≤ b → b ≤ len l → len (slice l a b) = b - a.
Proof.
  intros Ha Hb. rewrite slice_take_drop by lia. unfold len in *.
  rewrite length_take, length_drop. lia.
Qed.

Lemma concat_drop_stitch overlap w (ws : list (list string)) :
  (Z.to_nat overlap ≤ length w)%nat →
  concat (map (drop (Z.to_nat overlap)) (w :: ws))
  = drop (Z.to_nat overlap) (stitch overlap (w :: ws)).
Proof. intros H. simpl. by rewrite drop_app_le. Qed.

(** Stitching the windows gives back the words from [start] on. *)
Lemma stitch_windows words size overlap n start :
  0 ≤ overlap < size → 0 ≤ start →
  len words ≤ start + Z.of_nat n * (size - overlap) + size →
  (∀ j : nat, (j < n)%nat → start + Z.of_nat j * (size - overlap) + size < len words) →
  stitch overlap (windows (S n) words size (size - overlap) start)
  = drop (Z.to_nat start) words.
Proof.
  intros HO. revert start. induction n as [|n IH]; intros start Hstart Hlast Hbefore.
  - rewrite windows_cons. unfold windows. simpl. rewrite app_nil_r.
    rewrite slice_take_drop by lia. apply take_ge. unfold len in *.
    rewrite length_drop. lia.
  - rewrite windows_cons. unfold stitch.
    pose proof (Hbefore 0%nat ltac:(lia)) as H0.
    specialize (IH (start + (size - overlap)) ltac:(lia) ltac:(lia)).
    rewrite windows_cons in IH |- *. rewrite concat_drop_stitch.
    + rewrite IH.
      * rewrite drop_drop, slice_take_drop by lia.
        replace (Z.to_nat (start + (size - overlap)) + Z.to_nat overlap)%nat
          with (Z.to_nat start + Z.to_nat (start + size - start))%nat by lia.
        rewrite <- drop_drop. apply take_drop.
      * intros j Hj. specialize (Hbefore (S j)). lia.
    + rewrite slice_take_drop by lia. unfold len in *.
      rewrite length_take, length_drop. lia.
Qed.

(** Every position from [start] on lies in one of the windows. *)
Lemma windows_cover_index size step (n : nat) start i total :
  1 ≤ step ≤ size → total ≤ start + Z.of_nat n * step + size → start ≤ i < total →
  ∃ j : nat, (j ≤ n)%nat
    ∧ start + Z.of_nat j * step ≤ i < start + Z.of_nat j * step + size.
Proof.
  intros Hstep. revert start. induction n as [|n IH]; intros start Hlast Hi.
  - exists 0%nat. lia.
  - destruct (Z.lt_ge_cases i (start + step)) as [Hlt|Hge].
    + exists 0%nat. lia.
    + destruct (IH (start + step)) as (j & Hj & Hij); [lia..|].
      exists (S j). lia.
Qed.

Lemma string_length_app (s1 s2 : string) :
  String.length (s1 +:+ s2) = (String.length s1 + String.length s2)%nat.
Proof. induction s1 as [|c s1 IH]; simpl; [done|]. by rewrite IH. Qed.

(** A joined list of non-empty words has at least as many characters as
    words. *)
Lemma join_length (ws : list string) :
  Forall (fun w => (0 < String.length w)%nat) ws →
  (length ws ≤ String.length (join " " ws))%nat.
Proof.
  unfold join. induction 1 as [|w ws Hw Hws IH]; simpl; [done|].
  destruct ws as [|w' ws]; [simpl; lia|].
  rewrite !string_length_app. simpl in *. lia.
Qed.

Lemma words_of_nonempty text : Forall (fun w => (0 < String.length w)%nat) (words_of text).
Proof.
  apply Forall_forall. intros w [Hw _]%list_elem_of_filter.
  by apply Is_true_true, Nat.ltb_lt in Hw.
Qed.

Lemma join_slice_length (words : list string) a b :
  Forall (fun w => (0 < String.length w)%nat) words →
  0 ≤ a ≤ b → b ≤ len words →
  b - a ≤ Z.of_nat (String.length (join " " (slice words a b))).
Proof.
  intros Hw Ha Hb. rewrite <- (slice_length words a b) by done. unfold len.
  apply inj_le, join_length. unfold slice. by apply Forall_take, Forall_drop.
Qed.

(** [chunkText] in terms of the window loop. *)
Lemma chunkText_windows config text chunkSize overlap :
  let words := words_of text in
  chunkText config text chunkSize overlap
  = if (length words =? 0)%nat then Some []
    else emit config.(Config.chunking).(Config.minChunkSize)
           <$> window_loop (length words) words
                 (default config.(Config.chunking).(Config.chunkSize) chunkSize)
                 (default config.(Config.chunking).(Config.overlap) overlap) 0 [].
Proof.
  intros words. unfold chunkText. fold words.
  destruct (length words =? 0)%nat; [done|].
  apply (chunk_loop_windows _ _ _ _ _ 0 []).
Qed.

End CoverageFacts.

(** * Round trip between words and chunk text *)

Module RoundTripFacts.
Import Chunker ChunkerSpec CoverageFacts.

Lemma string_app_String c (s1 s2 : string) : String c s1 +:+ s2 = String c (s1 +:+ s2).
Proof. reflexivity. Qed.

Lemma string_app_assoc (s1 s2 s3 : string) : (s1 +:+ s2) +:+ s3 = s1 +:+ (s2 +:+ s3).
Proof.
  induction s1 as [|c s1 IH]; [reflexivity|].
  rewrite !string_app_String. f_equal. exact IH.
Qed.

Lemma string_app_empty_r (s : string) : s +:+ "" = s.
Proof.
  induction s as [|c s IH]; [reflexivity|].
  rewrite string_app_String. f_equal. exact IH.
Qed.

Lemma spaceless_snoc cur c :
  spaceless cur = true → is_space c = false → spaceless (cur +:+ String c "") = true.
Proof.
  intros Hcur Hc. induction cur as [|d cur IH].
  - simpl. by rewrite Hc.
  - rewrite string_app_String. simpl in *.
    apply andb_true_iff in Hcur as [Hd Hcur]. by rewrite Hd, IH.
Qed.

(** Reading a word that holds no white space extends the current piece. *)
Lemma split_ws_from_word w cur in_ws rest :
  spaceless w = true →
  split_ws_from cur in_ws (w +:+ rest)
  = split_ws_from (cur +:+ w) (match w with EmptyString => in_ws | _ => false end) rest.
Proof.
  revert cur in_ws. induction w as [|c w IH]; intros cur in_ws Hw.
  - by rewrite string_app_empty_r.
  - simpl in Hw. apply andb_true_iff in Hw as [Hc Hw]. apply negb_true_iff in Hc.
    rewrite string_app_String. cbn [split_ws_from]. rewrite Hc, IH by done.
    rewrite string_app_assoc, string_app_String. by destruct w.
Qed.

Lemma split_ws_from_spaceless s cur in_ws :
  spaceless cur = true → Forall (fun w => spaceless w = true) (split_ws_from cur in_ws s).
Proof.
  revert cur in_ws. induction s as [|c s IH]; intros cur in_ws Hcur; cbn [split_ws_from].
  - by repeat constructor.
  - destruct (is_space c) eqn:Hc.
    + destruct in_ws; [by apply IH|]. constructor; [done|by apply IH].
    + by apply IH, spaceless_snoc.
Qed.

Lemma words_of_word text :
  Forall (fun w => spaceless w = true ∧ w ≠ "") (words_of text).
Proof.
  apply Forall_forall. intros w [Hw Hin]%list_elem_of_filter. split.
  - pose proof (split_ws_from_spaceless text "" false eq_refl) as H.
    rewrite Forall_forall in H. by apply H.
  - intros ->. done.
Qed.

Lemma split_ws_from_join w ws cur in_ws :
  Forall (fun w => spaceless w = true ∧ w ≠ "") (w :: ws) →
  split_ws_from cur in_ws (join " " (w :: ws)) = (cur +:+ w) :: ws.
Proof.
  revert w cur in_ws. induction ws as [|w' ws IH]; intros w cur in_ws Hall.
  - apply Forall_cons in Hall as [[Hw Hne] _].
    change (join " " [w]) with w.
    rewrite <- (string_app_empty_r w) at 1. rewrite split_ws_from_word by done.
    done.
  - apply Forall_cons in Hall as [[Hw Hne] Hall].
    change (join " " (w :: w' :: ws)) with (w +:+ String " " (join " " (w' :: ws))).
    rewrite split_ws_from_word by done. destruct w as [|c w]; [done|].
    cbn [split_ws_from]. change (is_space " ") with true. cbn iota.
    by rewrite IH.
Qed.

(** Splitting the text of a chunk gives back its words. *)
Lemma words_of_join ws :
  Forall (fun w => spaceless w = true ∧ w ≠ "") ws → words_of (join " " ws) = ws.
Proof.
  intros Hall. destruct ws as [|w ws]; [done|].
  unfold words_of, split_ws. rewrite split_ws_from_join by done.
  change ("" +:+ w) with w.
  apply filter_all. eapply Forall_impl; [exact Hall|]. intros x [_ Hx].
  apply Is_true_true, Nat.ltb_lt. destruct x; [done|simpl; lia].
Qed.

End RoundTripFacts.

Section ChunkerClaims.
Import Chunker ChunkerSpec ChunkerFacts CoverageFacts RoundTripFacts.

Lemma words_nonempty_len (words : list string) :
  (length words =? 0)%nat = false → 0 < len words.
Proof. intros H%Nat.eqb_neq. unfold len. lia. Qed.

(** Every window of the loop holds at least one word. *)
Lemma window_nonempty (words : list string) size step (n j : nat) :
  1 ≤ step ≤ size → 0 < len words →
  (∀ k : nat, (k < n)%nat → Z.of_nat k * step + size < len words) →
  (j ≤ n)%nat →
  1 ≤ len (slice words (Z.of_nat j * step) (Z.of_nat j * step + size)).
Proof.
  intros Hstep Hlen Hbefore Hj.
  assert (Z.of_nat j * step < len words) as Hlt.
  { destruct j as [|j]; [lia|]. specialize (Hbefore j ltac:(lia)). lia. }
  rewrite slice_take_drop by lia. unfold len in *.
  rewrite length_take, length_drop. lia.
Qed.

(** C7, amended. For 0 ≤ overlap < chunkSize the chunks are the windows
    of [chunkSize] words taken every [chunkSize - overlap] words, joined
    by spaces, less the windows shorter than [minChunkSize] characters;
    the windows cover every word position, and the first window followed
    by the later windows without their first [overlap] words is the
    original word sequence.  Splitting a chunk's text gives back the
    words of its window, and with [minChunkSize] at most 1 no window is
    dropped. *)
Theorem chunkText_coverage config text size overlap :
  let words := words_of text in
  let floor := config.(Config.chunking).(Config.minChunkSize) in
  let step := size - overlap in
  0 ≤ overlap < size →
  ∃ wins : list (list string),
    chunkText config text (Some size) (Some overlap) = Some (emit floor wins)
    ∧ (floor ≤ 1 → emit floor wins = map (join " ") wins)
    ∧ (∀ win, win ∈ wins → words_of (join " " win) = win)
    ∧ (∀ (j : nat) win, wins !! j = Some win →
         win = slice words (Z.of_nat j * step) (Z.of_nat j * step + size))
    ∧ (∀ (i : nat) w, words !! i = Some w →
         ∃ (j : nat) win, wins !! j = Some win
           ∧ Z.of_nat j * step ≤ Z.of_nat i
           ∧ win !! Z.to_nat (Z.of_nat i - Z.of_nat j * step) = Some w)
    ∧ stitch overlap wins = words.
Proof.
  intros words floor step HO. rewrite chunkText_windows. fold words floor. simpl default.
  destruct (length words =? 0)%nat eqn:E.
  { apply Nat.eqb_eq, nil_length_inv in E. exists []. rewrite E.
    split_and!; try done. by intros win ?%elem_of_nil. }
  pose proof (words_nonempty_len words E) as Hlen.
  destruct (window_loop_spec (length words) words size overlap 0 [])
    as (n & Hrun & Hlast & Hbefore); [unfold len in *; lia..|].
  rewrite Z.max_r in Hrun, Hlast, Hbefore by lia. fold step in Hrun, Hlast, Hbefore.
  rewrite Hrun. simpl app. set (wins := windows (S n) words size step 0).
  assert (∀ (j : nat) win, wins !! j = Some win →
            (j ≤ n)%nat ∧
            win = slice words (Z.of_nat j * step) (Z.of_nat j * step + size)) as Hwin.
  { intros j win Hj. assert (j < S n)%nat as Hjn.
    { apply lookup_lt_Some in Hj. unfold wins, windows in Hj.
      by rewrite length_map, length_seq in Hj. }
    unfold wins in Hj. rewrite windows_lookup in Hj by done.
    injection Hj as <-. split; [lia|]. by rewrite !Z.add_0_l. }
  exists wins. split_and!; [done| | | | |].
  - intros Hfloor. unfold emit. apply filter_all, Forall_forall.
    intros chunk (win & -> & Hin)%list_elem_of_fmap.
    apply list_elem_of_lookup in Hin as (j & Hj). apply Hwin in Hj as (Hjn & ->).
    etrans; [exact Hfloor|].
    assert (1 ≤ len (slice words (Z.of_nat j * step) (Z.of_nat j * step + size))) as Hne.
    { apply window_nonempty with n; [unfold step; lia|done| |done].
      intros k Hk. specialize (Hbefore k Hk). lia. }
    etrans; [exact Hne|]. unfold len. apply inj_le, join_length.
    unfold slice. apply Forall_take, Forall_drop, words_of_nonempty.
  - intros win (j & Hj)%list_elem_of_lookup. apply Hwin in Hj as [_ ->].
    apply words_of_join. unfold slice. apply Forall_take, Forall_drop, words_of_word.
  - intros j win Hj. by apply Hwin in Hj as [_ ?].
  - intros i w Hi.
    destruct (windows_cover_index size step n 0 (Z.of_nat i) (len words))
      as (j & Hjn & Hij); [unfold step; lia|lia| |].
    { apply lookup_lt_Some in Hi. unfold len. lia. }
    exists j, (slice words (Z.of_nat j * step) (Z.of_nat j * step + size)).
    split_and!; [|lia|].
    + unfold wins. rewrite windows_lookup by lia. by rewrite !Z.add_0_l.
    + assert (0 ≤ Z.of_nat j * step) by (apply Z.mul_nonneg_nonneg; unfold step; lia).
      rewrite slice_lookup by lia. by rewrite Nat2Z.id.
  - unfold wins, step. rewrite stitch_windows; [done|lia..|].
    intros j Hj. specialize (Hbefore j Hj). unfold step in Hbefore. lia.
Qed.

(** C6, amended. A text of 1000 words with chunkSize 500, overlap 128
    and minChunkSize 50 gives three chunks, the words at [0, 500),
    [372, 872) and [744, 1000), of 500, 500 and 256 words. *)
Theorem chunkText_thousand_words config text :
  let words := words_of text in
  config.(Config.chunking).(Config.minChunkSize) = 50 →
  length words = 1000%nat →
  chunkText config text (Some 500) (Some 128)
  = Some [join " " (slice words 0 500); join " " (slice words 372 872);
          join " " (slice words 744 1000)]
  ∧ len (slice words 0 500) = 500
  ∧ len (slice words 372 872) = 500
  ∧ len (slice words 744 1000) = 256.
Proof.
  intros words Hfloor Hlen. rewrite chunkText_windows. fold words. simpl default.
  rewrite Hfloor, Hlen. change (1000 =? 0)%nat with false. rewrite <- Hlen.
  assert (len words = 1000) as HN by (unfold len; lia).
  destruct (window_loop_spec (length words) words 500 128 0 [])
    as (n & Hrun & Hlast & Hbefore); [unfold len in *; lia..|].
  change (Z.max 1 (500 - 128)) with 372 in *.
  assert (n = 2%nat) as ->.
  { destruct n as [|[|[|n]]]; [lia|lia|done|].
    specialize (Hbefore 2%nat ltac:(lia)). lia. }
  rewrite Hrun. unfold windows. cbn [seq map app fmap option_fmap option_map].
  change (0 + Z.of_nat 0 * 372) with 0. change (0 + Z.of_nat 1 * 372) with 372.
  change (0 + Z.of_nat 2 * 372) with 744.
  change (0 + 500) with 500. change (372 + 500) with 872. change (744 + 500) with 1244.
  replace (slice words 744 1244) with (slice words 744 1000).
  2:{ rewrite <- (slice_min words 744 1244) by lia. by rewrite HN. }
  pose proof (words_of_nonempty text) as Hw. fold words in Hw.
  split_and!; [|apply slice_length; lia..].
  f_equal. unfold emit. apply filter_all. cbn [map].
  repeat apply Forall_cons_2; [| | |apply Forall_nil_2].
  - pose proof (join_slice_length words 0 500 Hw). lia.
  - pose proof (join_slice_length words 372 872 Hw). lia.
  - pose proof (join_slice_length words 744 1000 Hw). lia.
Qed.

(** C8, amended. [chunkText] rejects nothing: it returns chunks for every
    chunk size and overlap.  With overlap ≥ chunkSize ≥ 1 the window
    advances by the floor of one word, so the chunks are the windows of
    [chunkSize] words at every position up to the one that reaches the
    last word. *)
Theorem chunkText_never_rejects config text chunkSize overlap :
  let words := words_of text in
  let floor := config.(Config.chunking).(Config.minChunkSize) in
  ∃ chunks,
    chunkText config text chunkSize overlap = Some chunks
    ∧ ∀ size over, chunkSize = Some size → overlap = Some over →
        1 ≤ size ≤ over → words ≠ [] →
        chunks = emit floor (windows (Z.to_nat (Z.max 1 (len words - size + 1)))
                                     words size 1 0).
Proof.
  intros words floor. rewrite chunkText_windows. fold words floor.
  destruct (length words =? 0)%nat eqn:E.
  { exists []. split; [done|]. intros size over _ _ _ Hne.
    apply Nat.eqb_eq, nil_length_inv in E. done. }
  pose proof (words_nonempty_len words E) as Hlen.
  destruct (window_loop_total (length words) words
              (default config.(Config.chunking).(Config.chunkSize) chunkSize)
              (default config.(Config.chunking).(Config.overlap) overlap) 0 [])
    as [wins Hwins]; [unfold len; lia|].
  rewrite Hwins. exists (emit floor wins). split; [done|].
  intros size over -> -> Hso _. simpl default in Hwins.
  destruct (window_loop_spec (length words) words size over 0 [])
    as (n & Hrun & Hlast & Hbefore); [unfold len in *; lia..|].
  rewrite Z.max_l in Hrun, Hlast, Hbefore by lia.
  rewrite Hrun in Hwins. injection Hwins as <-. simpl app.
  f_equal. f_equal.
  destruct n as [|n]; [lia|]. specialize (Hbefore n ltac:(lia)). lia.
Qed.

End ChunkerClaims.

Section ChunkerExampleFacts.
Import Chunker ChunkerSpec ChunkerFacts CoverageFacts Examples.

(** The three chunks of the text of 1000 one-letter words. *)
Lemma chunkText_thousand_words_witness :
  Config.minChunkSize (Config.chunking cfg) = 50
  ∧ length (words_of thousandWords) = 1000%nat
  ∧ chunkText cfg thousandWords (Some 500) (Some 128)
    = Some [join " " (slice (words_of thousandWords) 0 500);
            join " " (slice (words_of thousandWords) 372 872);
            join " " (slice (words_of thousandWords) 744 1000)].
Proof.
  assert (Config.minChunkSize (Config.chunking cfg) = 50) as Hf by reflexivity.
  assert (length (words_of thousandWords) = 1000%nat) as Hl by (vm_compute; reflexivity).
  destruct (chunkText_thousand_words cfg thousandWords Hf Hl) as (Hrun & _).
  split_and!; [exact Hf|exact Hl|exact Hrun].
Defined.

(** Counterexample to C6, on the text of 1000 one-letter words: the code
    returns three chunks, of 500, 500 and 256 words, not two, and none of
    628 words. *)
Lemma chunkText_thousand_words_three_chunks :
  ∃ chunks,
    length (words_of thousandWords) = 1000%nat
    ∧ chunkText cfg thousandWords (Some 500) (Some 128) = Some chunks
    ∧ length chunks = 3%nat
    ∧ map (fun chunk => length (words_of chunk)) chunks = [500; 500; 256]%nat
    ∧ length chunks ≠ 2%nat.
Proof. eexists. split_and!; [vm_compute; reflexivity..|]. vm_compute. discriminate. Qed.

(** Five words in windows of 3 with an overlap of 1. *)
Lemma chunkText_coverage_witness :
  0 ≤ 1 < 3
  ∧ ∃ wins,
      chunkText cfgNoFloor "a b c d e" (Some 3) (Some 1) = Some (map (join " ") wins)
      ∧ stitch 1 wins = words_of "a b c d e".
Proof.
  assert (0 ≤ 1 < 3) as H by lia.
  destruct (chunkText_coverage cfgNoFloor "a b c d e" 3 1 H)
    as (wins & Hrun & Hall & _ & _ & _ & Hstitch).
  split; [exact H|]. exists wins. split; [|exact Hstitch].
  rewrite Hrun. f_equal. apply Hall. vm_compute. discriminate.
Defined.

Example chunkText_five_words :
  chunkText cfgNoFloor "a b c d e" (Some 3) (Some 1) = Some ["a b c"; "c d e"].
Proof. vm_compute. reflexivity. Qed.

(** Counterexample to C7.  Under the size floor the two words of
    "hello world" make one window of 11 characters, below the floor of 50,
    and no chunk is emitted.  With a negative overlap, which is below the
    chunk size, the step exceeds the chunk size and words are passed
    over. *)
Lemma chunkText_short_text_uncovered :
  words_of "hello world" = ["hello"; "world"]
  ∧ chunkText cfg "hello world" (Some 500) (Some 128) = Some []
  ∧ (∀ chunks, chunkText cfg "hello world" (Some 500) (Some 128) = Some chunks →
       ¬ ∃ chunk, chunk ∈ chunks ∧ "hello" ∈ words_of chunk)
  ∧ chunkText cfgNoFloor "a b c d e f g" (Some 2) (Some (-3)) = Some ["a b"; "f g"].
Proof.
  split_and!; [vm_compute; reflexivity..| |vm_compute; reflexivity].
  intros chunks H. vm_compute in H. injection H as <-.
  intros (chunk & Hin & _). by apply elem_of_nil in Hin.
Qed.

(** Three words, chunk size 2 and overlap 2. *)
Lemma chunkText_never_rejects_witness :
  ∃ chunks,
    chunkText cfgNoFloor "a b c" (Some 2) (Some 2) = Some chunks
    ∧ chunks = emit 0 (windows 2 (words_of "a b c") 2 1 0).
Proof.
  destruct (chunkText_never_rejects cfgNoFloor "a b c" (Some 2) (Some 2))
    as (chunks & Hrun & Hstep).
  exists chunks. split; [exact Hrun|].
  apply (Hstep 2 2); [reflexivity|reflexivity|lia|]. vm_compute. discriminate.
Defined.

(** Counterexample to C8: with overlap equal to, or larger than, the chunk
    size the call returns chunks, one window per word position. *)
Lemma chunkText_overlap_not_rejected :
  chunkText cfgNoFloor "a b c" (Some 2) (Some 2) = Some ["a b"; "b c"]
  ∧ chunkText cfgNoFloor "a b c" (Some 2) (Some 5) = Some ["a b"; "b c"].
Proof. split; vm_compute; reflexivity. Qed.

End ChunkerExampleFacts.

(** * Further properties of the chunker *)

Module ChunkerMoreFacts.
Import Chunker ChunkerSpec ChunkerFacts CoverageFacts RoundTripFacts ChunkerMoreSpec.
Import RerankFacts.

Lemma slice_min_end {A} (l : list A) a b : slice l a (Z.min b (len l)) = slice l a b.
Proof.
  unfold slice. f_equal. f_equal. f_equal. unfold len.
  destruct (Z.ltb_spec b 0) as [Hb|Hb].
  - rewrite Z.min_l by lia. by rewrite (proj2 (Z.ltb_lt b 0)).
  - rewrite (proj2 (Z.ltb_ge (Z.min b (Z.of_nat (length l))) 0)) by lia. lia.
Qed.

(** What holds of every window the loop can cut holds of its result. *)
Lemma window_loop_Forall (P : list string → Prop) fuel words chunkSize overlap start wins r :
  0 ≤ start → Forall P wins →
  (∀ a, 0 ≤ a < len words → P (slice words a (a + chunkSize))) →
  window_loop fuel words chunkSize overlap start wins = Some r → Forall P r.
Proof.
  intros Hstart Hwins HP. revert start wins Hstart Hwins.
  induction fuel as [|fuel IH]; intros start wins Hstart Hwins; simpl.
  - destruct (start <? len words); [done|]. by intros [= <-].
  - destruct (start <? len words) eqn:E; [|by intros [= <-]].
    apply Z.ltb_lt in E. rewrite slice_min_end.
    assert (Forall P (wins ++ [slice words start (start + chunkSize)])) as Hnew.
    { apply Forall_app. split; [done|]. apply Forall_singleton, HP. lia. }
    destruct (_ =? len words); [by intros [= <-]|]. apply IH; [lia|done].
Qed.

(** The chunks are the emitted windows of a run that ends. *)
Lemma chunkText_emitted config text chunkSize overlap :
  let words := words_of text in
  let size := default config.(Config.chunking).(Config.chunkSize) chunkSize in
  ∃ wins,
    chunkText config text chunkSize overlap
    = Some (emit config.(Config.chunking).(Config.minChunkSize) wins)
    ∧ Forall (fun win => ∃ a, 0 ≤ a < len words ∧ win = slice words a (a + size)) wins.
Proof.
  intros words size. rewrite chunkText_windows. fold words size.
  destruct (length words =? 0)%nat eqn:E.
  { exists []. split; [done|constructor]. }
  destruct (window_loop_total (length words) words size
              (default config.(Config.chunking).(Config.overlap) overlap) 0 [])
    as [wins Hwins]; [unfold len; lia|].
  exists wins. rewrite Hwins. split; [done|].
  eapply window_loop_Forall; [| |intros a Ha|exact Hwins]; [done|constructor|].
  simpl. eauto.
Qed.

Lemma window_words (words : list string) a size :
  0 ≤ a < len words → 1 ≤ size →
  1 ≤ len (slice words a (a + size)) ≤ size.
Proof.
  intros Ha Hs. rewrite slice_take_drop by lia. unfold len in *.
  rewrite length_take, length_drop. lia.
Qed.

Lemma words_of_window text a b :
  words_of (join " " (slice (words_of text) a b)) = slice (words_of text) a b.
Proof.
  apply words_of_join. unfold slice. apply Forall_take, Forall_drop, words_of_word.
Qed.

Lemma elem_of_emit floor wins chunk :
  chunk ∈ emit floor wins ↔
  floor ≤ Z.of_nat (String.length chunk) ∧ ∃ win, chunk = join " " win ∧ win ∈ wins.
Proof.
  unfold emit. rewrite list_elem_of_filter.
  change (map ?f ?l) with (f <$> l). by rewrite list_elem_of_fmap.
Qed.

(** One turn of the loop on a text that fits one window. *)
Lemma window_loop_single (words : list string) chunkSize overlap :
  words ≠ [] → len words ≤ chunkSize →
  window_loop (length words) words chunkSize overlap 0 [] = Some [words].
Proof.
  intros Hne Hlen. destruct words as [|w words]; [done|].
  cbn [length window_loop]. unfold len in *.
  rewrite (proj2 (Z.ltb_lt 0 _)) by (simpl; lia).
  rewrite Z.add_0_l, Z.min_r by lia. rewrite Z.eqb_refl. simpl app.
  f_equal. f_equal. apply slice_0_full. unfold len. simpl. lia.
Qed.

End ChunkerMoreFacts.

Section ChunkerMoreClaims.
Import Chunker ChunkerSpec ChunkerFacts CoverageFacts RoundTripFacts ChunkerMoreSpec.
Import ChunkerMoreFacts RerankFacts.

(** X1. Whatever the chunk size and the overlap, [chunkText] returns, and
    every chunk it returns has at least [minChunkSize] characters. *)
Theorem chunkText_floor config text chunkSize overlap :
  ∃ chunks,
    chunkText config text chunkSize overlap = Some chunks
    ∧ Forall (fun chunk =>
                config.(Config.chunking).(Config.minChunkSize)
                ≤ Z.of_nat (String.length chunk)) chunks.
Proof.
  destruct (chunkText_emitted config text chunkSize overlap) as (wins & Hrun & _).
  eexists. split; [exact Hrun|].
  apply Forall_forall. by intros chunk [? _]%elem_of_emit.
Qed.

(** X2. For a chunk size of at least 1 and any overlap, every chunk is
    the text of between 1 and [chunkSize] consecutive words of the source,
    joined by single spaces. *)
Theorem chunkText_chunk_words config text chunkSize overlap :
  let words := words_of text in
  let size := default config.(Config.chunking).(Config.chunkSize) chunkSize in
  1 ≤ size →
  ∃ chunks,
    chunkText config text chunkSize overlap = Some chunks
    ∧ ∀ chunk, chunk ∈ chunks →
        ∃ a, 0 ≤ a < len words
          ∧ words_of chunk = slice words a (a + size)
          ∧ chunk = join " " (slice words a (a + size))
          ∧ 1 ≤ len (words_of chunk) ≤ size.
Proof.
  intros words size Hsize.
  destruct (chunkText_emitted config text chunkSize overlap) as (wins & Hrun & Hwins).
  fold words size in Hwins. eexists. split; [exact Hrun|].
  intros chunk (_ & win & -> & Hin)%elem_of_emit.
  rewrite Forall_forall in Hwins. destruct (Hwins win Hin) as (a & Ha & ->).
  exists a. unfold words. rewrite words_of_window. fold words.
  split_and!; [lia..|done|done| |]; by apply window_words.
Qed.

(** A text that fits one window. *)
Lemma chunkText_one_window config text chunkSize overlap :
  let words := words_of text in
  let size := default config.(Config.chunking).(Config.chunkSize) chunkSize in
  words ≠ [] → len words ≤ size →
  chunkText config text chunkSize overlap
  = Some (if config.(Config.chunking).(Config.minChunkSize)
             <=? Z.of_nat (String.length (join " " words))
          then [join " " words] else []).
Proof.
  intros words size Hne Hlen. rewrite chunkText_windows. fold words size.
  destruct (length words =? 0)%nat eqn:E.
  { apply Nat.eqb_eq, nil_length_inv in E. done. }
  rewrite window_loop_single by done. simpl. f_equal.
  apply (emit_snoc _ [] words).
Qed.

(** X3. A text of at least one and at most [chunkSize] words gives,
    whatever the overlap, the one chunk that holds all its words separated
    by single spaces, or no chunk when that text is below the size floor. *)
Theorem chunkText_single_window config text chunkSize overlap :
  let words := words_of text in
  let size := default config.(Config.chunking).(Config.chunkSize) chunkSize in
  words ≠ [] → len words ≤ size →
  chunkText config text chunkSize overlap
  = Some (if config.(Config.chunking).(Config.minChunkSize)
             <=? Z.of_nat (String.length (join " " words))
          then [join " " words] else []).
Proof.
  intros words size Hne Hlen. rewrite chunkText_windows. fold words size.
  destruct (length words =? 0)%nat eqn:E.
  { apply Nat.eqb_eq, nil_length_inv in E. done. }
  rewrite window_loop_single by done. simpl. f_equal.
  apply (emit_snoc _ [] words).
Qed.

Lemma split_ws_from_blank s in_ws :
  all_space s = true → Forall (fun w => w = "") (split_ws_from "" in_ws s).
Proof.
  revert in_ws. induction s as [|c s IH]; intros in_ws Hs; cbn [split_ws_from].
  - by repeat constructor.
  - simpl in Hs. apply andb_true_iff in Hs as [-> Hs].
    destruct in_ws; [by apply IH|]. constructor; [done|by apply IH].
Qed.

Lemma words_of_blank text : all_space text = true → words_of text = [].
Proof.
  intros H. unfold words_of, split_ws.
  pose proof (split_ws_from_blank text false H) as Hall.
  induction Hall as [|w l -> _ IH]; [done|].
  rewrite filter_cons_False; [exact IH|]. cbv. tauto.
Qed.

(** X4. A text that holds nothing but white space, the empty text among
    them, gives no chunk, whatever the chunk size and the overlap. *)
Theorem chunkText_blank_text config text chunkSize overlap :
  all_space text = true → chunkText config text chunkSize overlap = Some [].
Proof.
  intros H. unfold chunkText. by rewrite words_of_blank.
Qed.

(** X5. For a chunk size of at least 1, chunking a chunk again with the
    same chunk size gives back that chunk alone. *)
Theorem chunkText_idempotent config text chunkSize overlap overlap' chunks chunk :
  1 ≤ default config.(Config.chunking).(Config.chunkSize) chunkSize →
  chunkText config text chunkSize overlap = Some chunks → chunk ∈ chunks →
  chunkText config chunk chunkSize overlap' = Some [chunk].
Proof.
  intros Hsize Hrun Hin.
  destruct (chunkText_emitted config text chunkSize overlap) as (wins & Hrun' & Hwins).
  rewrite Hrun in Hrun'. injection Hrun' as ->.
  apply elem_of_emit in Hin as (Hfloor & win & -> & Hin).
  rewrite Forall_forall in Hwins. destruct (Hwins win Hin) as (a & Ha & ->).
  pose proof (window_words (words_of text) a _ Ha Hsize) as Hlen.
  rewrite chunkText_one_window; rewrite words_of_window.
  - by rewrite (proj2 (Z.leb_le _ _) Hfloor).
  - intros E. rewrite E in Hlen. unfold len in Hlen. simpl in Hlen. lia.
  - lia.
Qed.

(** The run of the loop for a chunk size of at least 1 and an overlap of
    at least 0, on a text with a word. *)
Lemma chunkText_run config text size overlap :
  let words := words_of text in
  let step := Z.max 1 (size - overlap) in
  1 ≤ size → 0 ≤ overlap → words ≠ [] →
  ∃ n : nat,
    chunkText config text (Some size) (Some overlap)
    = Some (emit config.(Config.chunking).(Config.minChunkSize)
                 (windows (S n) words size step 0))
    ∧ len words ≤ Z.of_nat n * step + size
    ∧ ∀ j : nat, (j < n)%nat → Z.of_nat j * step + size < len words.
Proof.
  intros words step Hsize Hover Hne. rewrite chunkText_windows. fold words. simpl default.
  destruct (length words =? 0)%nat eqn:E.
  { apply Nat.eqb_eq, nil_length_inv in E. done. }
  apply Nat.eqb_neq in E.
  destruct (window_loop_spec (length words) words size overlap 0 [])
    as (n & Hrun & Hlast & Hbefore); [unfold len; lia..|].
  exists n. rewrite Hrun. split_and!; [done|lia|].
  intros j Hj. specialize (Hbefore j Hj). lia.
Qed.

(** X6. For 0 ≤ overlap < chunkSize and a size floor of at most 1, every
    chunk that has a successor holds exactly [chunkSize] words, and its
    last [overlap] words are the first [overlap] words of its successor. *)
Theorem chunkText_overlap_shared config text size overlap :
  0 ≤ overlap < size →
  config.(Config.chunking).(Config.minChunkSize) ≤ 1 →
  ∃ chunks,
    chunkText config text (Some size) (Some overlap) = Some chunks
    ∧ ∀ (j : nat) chunk next,
        chunks !! j = Some chunk → chunks !! S j = Some next →
        len (words_of chunk) = size
        ∧ drop (Z.to_nat (size - overlap)) (words_of chunk)
          = take (Z.to_nat overlap) (words_of next)
        ∧ len (take (Z.to_nat overlap) (words_of next)) = overlap.
Proof.
  intros HO Hfloor. set (words := words_of text).
  destruct (decide (words = [])) as [Hnil|Hne].
  { exists []. split; [|done]. unfold chunkText. fold words. by rewrite Hnil. }
  destruct (chunkText_run config text size overlap) as (n & Hrun & Hlast & Hbefore);
    [lia|lia|done|].
  fold words in Hrun, Hlast, Hbefore. rewrite Z.max_r in Hrun, Hlast, Hbefore by lia.
  set (step := size - overlap) in *.
  assert (emit (Config.minChunkSize (Config.chunking config))
               (windows (S n) words size step 0)
          = map (join " ") (windows (S n) words size step 0)) as Hall.
  { unfold emit. apply filter_all, Forall_forall.
    intros chunk (win & -> & Hin)%list_elem_of_fmap.
    apply list_elem_of_lookup in Hin as (j & Hj).
    assert (j < S n)%nat as Hjn.
    { apply lookup_lt_Some in Hj. unfold windows in Hj.
      by rewrite length_map, length_seq in Hj. }
    rewrite windows_lookup in Hj by done. injection Hj as <-. rewrite !Z.add_0_l.
    etrans; [exact Hfloor|].
    assert (1 ≤ len (slice words (Z.of_nat j * step) (Z.of_nat j * step + size))) as H1.
    { apply window_nonempty with n; [unfold step; lia|unfold len; destruct words; simpl; [done|lia]|done|lia]. }
    etrans; [exact H1|]. unfold len. apply inj_le, join_length.
    unfold slice. apply Forall_take, Forall_drop, words_of_nonempty. }
  rewrite Hall in Hrun. eexists. split; [exact Hrun|].
  intros j chunk next Hj Hnext.
  change (map ?f ?l) with (f <$> l) in Hj, Hnext.
  rewrite list_lookup_fmap in Hj, Hnext.
  assert (S j < S n)%nat as Hjn.
  { destruct (windows (S n) words size step 0 !! S j) eqn:E; [|done].
    apply lookup_lt_Some in E. unfold windows in E.
    by rewrite length_map, length_seq in E. }
  rewrite windows_lookup in Hj, Hnext by lia. simpl in Hj, Hnext.
  injection Hj as <-. injection Hnext as <-. rewrite !Z.add_0_l.
  unfold words. rewrite !words_of_window. fold words.
  specialize (Hbefore j ltac:(lia)).
  assert (0 ≤ Z.of_nat j * step) as Hpos by (apply Z.mul_nonneg_nonneg; unfold step; lia).
  rewrite !slice_take_drop by lia. unfold len in *.
  replace (Z.of_nat j * step + size - Z.of_nat j * step) with size by lia.
  replace (Z.of_nat (S j) * step + size - Z.of_nat (S j) * step) with size by lia.
  replace (Z.to_nat (Z.of_nat (S j) * step))
    with (Z.to_nat (Z.of_nat j * step) + Z.to_nat step)%nat by lia.
  split_and!.
  - rewrite length_take, length_drop. lia.
  - rewrite skipn_firstn_comm, drop_drop, take_take.
    f_equal; unfold step; lia.
  - rewrite take_take, length_take, length_drop. unfold step in *. lia.
Qed.

End ChunkerMoreClaims.

Section ChunkerMoreExamples.
Import Chunker ChunkerSpec ChunkerMoreSpec Examples.

(** Five words, windows of at most 3 words. *)
Lemma chunkText_chunk_words_witness :
  1 ≤ 3
  ∧ ∃ chunks,
      chunkText cfgNoFloor "a b c d e" (Some 3) (Some 1) = Some chunks
      ∧ ∀ chunk, chunk ∈ chunks → 1 ≤ len (words_of chunk) ≤ 3.
Proof.
  assert (1 ≤ 3) as H by lia.
  destruct (chunkText_chunk_words cfgNoFloor "a b c d e" (Some 3) (Some 1) H)
    as (chunks & Hrun & Hall).
  split; [exact H|]. exists chunks. split; [exact Hrun|].
  intros chunk Hin. destruct (Hall chunk Hin) as (a & _ & _ & _ & Hlen). exact Hlen.
Defined.

(** Two words between runs of spaces, under the default size of 500. *)
Lemma chunkText_single_window_witness :
  words_of "  hello   world " ≠ []
  ∧ len (words_of "  hello   world ") ≤ 500
  ∧ chunkText cfgNoFloor "  hello   world " None None = Some ["hello world"].
Proof.
  assert (words_of "  hello   world " ≠ []) as Hne by (vm_compute; discriminate).
  assert (len (words_of "  hello   world ") ≤ 500) as Hlen by (vm_compute; discriminate).
  split_and!; [exact Hne|exact Hlen|].
  rewrite (chunkText_single_window cfgNoFloor "  hello   world " None None Hne Hlen).
  vm_compute. reflexivity.
Defined.

(** Three spaces. *)
Lemma chunkText_blank_text_witness :
  all_space "   " = true ∧ chunkText cfg "   " None None = Some [].
Proof.
  assert (all_space "   " = true) as H by reflexivity.
  split; [exact H|]. exact (chunkText_blank_text cfg "   " None None H).
Defined.

(** The second chunk of five words in windows of 3. *)
Lemma chunkText_idempotent_witness :
  1 ≤ 3
  ∧ chunkText cfgNoFloor "a b c d e" (Some 3) (Some 1) = Some ["a b c"; "c d e"]
  ∧ "c d e" ∈ ["a b c"; "c d e"]
  ∧ chunkText cfgNoFloor "c d e" (Some 3) (Some 2) = Some ["c d e"].
Proof.
  assert (1 ≤ 3) as H by lia.
  assert (chunkText cfgNoFloor "a b c d e" (Some 3) (Some 1) = Some ["a b c"; "c d e"])
    as Hrun by (vm_compute; reflexivity).
  assert ("c d e" ∈ ["a b c"; "c d e"]) as Hin by (right; left).
  split_and!; [exact H|exact Hrun|exact Hin|].
  exact (chunkText_idempotent cfgNoFloor "a b c d e" (Some 3) (Some 1) (Some 2) _ _
           H Hrun Hin).
Defined.

(** Five words in windows of 3 with an overlap of 1. *)
Lemma chunkText_overlap_shared_witness :
  0 ≤ 1 < 3
  ∧ Config.minChunkSize (Config.chunking cfgNoFloor) ≤ 1
  ∧ ∃ chunks,
      chunkText cfgNoFloor "a b c d e" (Some 3) (Some 1) = Some chunks
      ∧ ∀ (j : nat) chunk next,
          chunks !! j = Some chunk → chunks !! S j = Some next →
          drop (Z.to_nat (3 - 1)) (words_of chunk) = take (Z.to_nat 1) (words_of next).
Proof.
  assert (0 ≤ 1 < 3) as H by lia.
  assert (Config.minChunkSize (Config.chunking cfgNoFloor) ≤ 1) as Hf by (simpl; lia).
  destruct (chunkText_overlap_shared cfgNoFloor "a b c d e" 3 1 H Hf)
    as (chunks & Hrun & Hall).
  split; [exact H|]. split; [exact Hf|]. exists chunks. split; [exact Hrun|].
  intros j chunk next Hj Hnext. by destruct (Hall j chunk next Hj Hnext) as (_ & ? & _).
Defined.

End ChunkerMoreExamples.

(** * Structured chunks *)

Module IngestFacts.
Import Chunker Ingest.

Lemma createTextChunks_total config text ticket messageUid isOutgoing :
  ∃ chunkTexts chunks,
    chunkText config text None None = Some chunkTexts
    ∧ createTextChunks config text ticket messageUid isOutgoing = Some chunks
    ∧ map TextChunk.text chunks = chunkTexts
    ∧ Forall (fun c => c.(TextChunk.messageUid) = messageUid) chunks.
Proof.
  destruct (ChunkerMoreFacts.chunkText_emitted config text None None) as (wins & Hrun & _).
  set (chunkTexts := ChunkerSpec.emit _ wins) in Hrun.
  unfold createTextChunks. rewrite Hrun. simpl. eexists _, _.
  split_and!; [done..| |].
  - apply list_eq. intros i. change (map ?f ?l) with (f <$> l).
    rewrite list_lookup_fmap, list_lookup_imap. by destruct (chunkTexts !! i).
  - apply Forall_lookup. intros i c. rewrite list_lookup_imap.
    destruct (chunkTexts !! i); [|done]. by intros [= <-].
Qed.

(** The fold of [chunkByMessages], one group of chunks per message. *)
Lemma chunkByMessages_groups config ticket messages acc :
  ∃ groups,
    Forall2 (fun message group =>
               createTextChunks config message.(Message.content) ticket
                 (Some message.(Message.uid)) (Some message.(Message.isOutgoing))
               = Some group) messages groups
    ∧ foldl (fun allChunks message =>
               allChunks ← allChunks;
               chunks ← createTextChunks config message.(Message.content) ticket
                          (Some message.(Message.uid))
                          (Some message.(Message.isOutgoing));
               Some (allChunks ++ chunks))
            (Some acc) messages
      = Some (acc ++ concat groups).
Proof.
  revert acc. induction messages as [|m messages IH]; intros acc.
  - exists []. split; [constructor|]. simpl. by rewrite app_nil_r.
  - destruct (createTextChunks_total config m.(Message.content) ticket
                (Some m.(Message.uid)) (Some m.(Message.isOutgoing)))
      as (texts & group & _ & Hgroup & _).
    destruct (IH (acc ++ group)) as (groups & Hall & Hfold).
    exists (group :: groups). split; [by constructor|].
    simpl. rewrite Hgroup. simpl. rewrite Hfold. by rewrite <- app_assoc.
Qed.

End IngestFacts.

Section IngestClaims.
Import Chunker Ingest IngestFacts.

(** X7. [createTextChunks] returns one chunk per text of [chunkText], in
    the same order; the chunk at position [i] has index [i] and the count
    of all chunks in its metadata, carries the ticket's uid and the message
    uid it was given, and no two chunks of the call share an id. *)
Theorem createTextChunks_chunks config text ticket uid isOutgoing :
  ∃ chunkTexts chunks,
    chunkText config text None None = Some chunkTexts
    ∧ createTextChunks config text ticket uid isOutgoing = Some chunks
    ∧ map TextChunk.text chunks = chunkTexts
    ∧ (∀ (i : nat) c, chunks !! i = Some c →
         c.(TextChunk.chunkIndex) = Z.of_nat i
         ∧ c.(TextChunk.metadata).(chunkIndex) = Z.of_nat i
         ∧ c.(TextChunk.metadata).(totalChunks) = len chunks
         ∧ c.(TextChunk.ticketUid) = ticket.(TicketRecord.uid)
         ∧ c.(TextChunk.metadata).(ticketUid) = ticket.(TicketRecord.uid)
         ∧ c.(TextChunk.messageUid) = uid
         ∧ c.(TextChunk.metadata).(messageUid) = uid)
    ∧ NoDup (map TextChunk.id chunks).
Proof.
  destruct (ChunkerMoreFacts.chunkText_emitted config text None None) as (wins & Hrun & _).
  set (chunkTexts := ChunkerSpec.emit _ wins) in Hrun.
  unfold createTextChunks. rewrite Hrun. simpl. eexists _, _.
  split_and!; [done..| | |].
  - apply list_eq. intros i. change (map ?f ?l) with (f <$> l).
    rewrite list_lookup_fmap, list_lookup_imap. by destruct (chunkTexts !! i).
  - intros i c. rewrite list_lookup_imap.
    destruct (chunkTexts !! i); [|done]. intros [= <-]. simpl.
    split_and!; try done. unfold len. by rewrite length_imap.
  - apply NoDup_alt. intros i j x. change (map ?f ?l) with (f <$> l).
    rewrite !list_lookup_fmap, !list_lookup_imap.
    destruct (chunkTexts !! i); [|done]. destruct (chunkTexts !! j); [|done].
    simpl. intros [= <-] [= Heq]. destruct (truthy uid).
    + do 4 apply String.app_inj in Heq. by apply pretty_nat_inj in Heq.
    + do 2 apply String.app_inj in Heq. by apply pretty_nat_inj in Heq.
Qed.

(** X8. [chunkByMessages] returns the chunks of the first message, then
    those of the second, and so on; every chunk carries the uid of one
    message and its text is a chunk of that message's content alone. *)
Theorem chunkByMessages_per_message config messages ticket :
  ∃ groups chunks,
    chunkByMessages config messages ticket = Some chunks
    ∧ chunks = concat groups
    ∧ Forall2 (fun message group =>
                 createTextChunks config message.(Message.content) ticket
                   (Some message.(Message.uid)) (Some message.(Message.isOutgoing))
                 = Some group) messages groups
    ∧ ∀ c, c ∈ chunks →
        ∃ message texts,
          message ∈ messages
          ∧ c.(TextChunk.messageUid) = Some message.(Message.uid)
          ∧ chunkText config message.(Message.content) None None = Some texts
          ∧ c.(TextChunk.text) ∈ texts.
Proof.
  destruct (chunkByMessages_groups config ticket messages []) as (groups & Hall & Hfold).
  exists groups, (concat groups). split_and!; [exact Hfold|done|done|].
  intros c Hc. apply list_elem_of_In, in_concat in Hc as (group & Hgroup & Hc).
  apply list_elem_of_In in Hgroup, Hc.
  apply list_elem_of_lookup in Hgroup as (k & Hk).
  destruct (Forall2_lookup_r _ _ _ _ _ Hall Hk) as (m & Hm & Hcreate).
  destruct (createTextChunks_total config m.(Message.content) ticket
              (Some m.(Message.uid)) (Some m.(Message.isOutgoing)))
    as (texts & group' & Htexts & Hgroup' & Hmap & Huid).
  rewrite Hcreate in Hgroup'. injection Hgroup' as <-.
  exists m, texts. split_and!; [by eapply list_elem_of_lookup_2|..|done|].
  - rewrite Forall_forall in Huid. by apply Huid.
  - rewrite <- Hmap. by apply list_elem_of_fmap_2.
Qed.

End IngestClaims.

(** * The earlier chunker *)

Module LegacyFacts.
Import Js Chunker CoverageFacts ChunkerMoreFacts.

Lemma split_ws_from_cons cur in_ws s : (0 < length (split_ws_from cur in_ws s))%nat.
Proof.
  revert cur in_ws. induction s as [|c s IH]; intros cur in_ws; simpl; [lia|].
  destruct (is_space c); [destruct in_ws; simpl|]; auto with lia.
Qed.

(** A step that does not advance leaves [start] at or before the first
    word, where the loop neither stops nor leaves. *)
Lemma legacy_loop_diverges fuel words chunkSize overlap start chunks :
  chunkSize - overlap ≤ 0 → start ≤ 0 → chunkSize < len words → 0 < len words →
  ChunkerLegacy.chunk_loop fuel words chunkSize overlap start chunks = None.
Proof.
  intros Hstep. revert start chunks.
  induction fuel as [|fuel IH]; intros start chunks Hstart Hlong Hwords; simpl.
  - destruct (Z.ltb_spec start (len words)); [done|lia].
  - destruct (Z.ltb_spec start (len words)); [|lia].
    destruct (Z.leb_spec (len words) (start + chunkSize)); [lia|].
    apply IH; lia.
Qed.

Lemma legacy_loop_returns fuel words chunkSize overlap start chunks :
  1 ≤ chunkSize - overlap → len words - start ≤ Z.of_nat fuel →
  ∃ result, ChunkerLegacy.chunk_loop fuel words chunkSize overlap start chunks
            = Some result.
Proof.
  intros Hstep. revert start chunks.
  induction fuel as [|fuel IH]; intros start chunks Hfuel; simpl.
  - destruct (Z.ltb_spec start (len words)); [lia|by eexists].
  - destruct (Z.ltb_spec start (len words)); [|by eexists].
    destruct (Z.leb_spec (len words) (start + chunkSize)); [by eexists|].
    apply IH; lia.
Qed.

(** With a positive step the loop of [chunkText] is the earlier loop with
    the chunks below the floor left out. *)
Lemma chunk_loop_legacy fuel words chunkSize overlap floor start chunks :
  1 ≤ chunkSize - overlap →
  chunk_loop fuel words chunkSize overlap floor start
    (filter (fun c => floor ≤ Z.of_nat (String.length c)) chunks)
  = filter (fun c => floor ≤ Z.of_nat (String.length c))
      <$> ChunkerLegacy.chunk_loop fuel words chunkSize overlap start chunks.
Proof.
  intros Hstep. revert start chunks.
  induction fuel as [|fuel IH]; intros start chunks; simpl.
  - by destruct (start <? len words).
  - destruct (start <? len words); [|done].
    rewrite slice_min_end. rewrite (Z.max_r 1) by lia.
    set (chunk := join " " (slice words start (start + chunkSize))).
    assert ((if floor <=? Z.of_nat (String.length chunk)
             then filter (fun c => floor ≤ Z.of_nat (String.length c)) chunks ++ [chunk]
             else filter (fun c => floor ≤ Z.of_nat (String.length c)) chunks)
            = filter (fun c => floor ≤ Z.of_nat (String.length c)) (chunks ++ [chunk]))
      as ->.
    { rewrite filter_app. destruct (Z.leb_spec floor (Z.of_nat (String.length chunk))).
      - by rewrite filter_cons_True.
      - rewrite filter_cons_False by lia. by rewrite filter_nil, app_nil_r. }
    destruct (Z.leb_spec (len words) (start + chunkSize)).
    + by rewrite Z.min_r, Z.eqb_refl by lia.
    + rewrite Z.min_l by lia.
      destruct (Z.eqb_spec (start + chunkSize) (len words)); [lia|]. apply IH.
Qed.

End LegacyFacts.

Section LegacyClaims.
Import Js Chunker CoverageFacts LegacyFacts.

(** X9. The earlier [chunkText] returns exactly when its step
    [chunkSize - overlap] is at least one or the text splits into at most
    [chunkSize] pieces; otherwise its loop is still running after any
    number of turns. *)
Theorem legacy_chunkText_returns_iff text chunkSize overlap :
  (∃ fuel chunks, ChunkerLegacy.chunkText fuel text chunkSize overlap = Some chunks)
  ↔ (1 ≤ default 500 chunkSize - default 128 overlap
     ∨ len (split_ws text) ≤ default 500 chunkSize).
Proof.
  unfold ChunkerLegacy.chunkText.
  pose proof (split_ws_from_cons EmptyString false text) as Hwords.
  fold (split_ws text) in Hwords.
  set (words := split_ws text) in *. set (size := default 500 chunkSize).
  set (lap := default 128 overlap). clearbody words size lap. split.
  - intros (fuel & chunks & Hrun).
    destruct (Z.le_gt_cases 1 (size - lap)); [by left|]. right.
    destruct (Z.le_gt_cases (len words) size); [done|].
    rewrite legacy_loop_diverges in Hrun; [done|unfold len in *; lia..].
  - intros [Hstep|Hshort].
    + destruct (legacy_loop_returns (length words) words size lap 0 [] Hstep)
        as (result & Hrun); [unfold len; lia|]. by exists (length words), result.
    + exists 1%nat. simpl.
      destruct (Z.ltb_spec 0 (len words)); [|by eexists].
      destruct (Z.leb_spec (len words) (0 + size)); [by eexists|lia].
Qed.

(** X10. For a step [chunkSize - overlap] of at least one and a text whose
    split leaves no empty piece, [chunkText] returns the chunks of the
    earlier [chunkText] that reach the size floor, in the same order. *)
Theorem chunkText_filters_legacy config text chunkSize overlap :
  1 ≤ chunkSize - overlap →
  Forall (fun w => w ≠ EmptyString) (split_ws text) →
  chunkText config text (Some chunkSize) (Some overlap)
  = filter (fun c => config.(Config.chunking).(Config.minChunkSize)
                     ≤ Z.of_nat (String.length c))
      <$> ChunkerLegacy.chunkText (length (split_ws text)) text
            (Some chunkSize) (Some overlap).
Proof.
  intros Hstep Hpieces. unfold chunkText, ChunkerLegacy.chunkText. simpl.
  assert (words_of text = split_ws text) as ->.
  { unfold words_of. apply filter_all. eapply Forall_impl; [exact Hpieces|].
    intros [|c w] Hw; [done|]. simpl. done. }
  pose proof (split_ws_from_cons EmptyString false text) as Hwords.
  fold (split_ws text) in Hwords.
  destruct (Nat.eqb_spec (length (split_ws text)) 0); [lia|].
  by rewrite <- chunk_loop_legacy.
Qed.

End LegacyClaims.

(** * The rerankers, continued *)

Section SortMoreFacts.
Context {A : Type} (comparefn : A → A → Q) (key : A → Q) (P : A → Prop).
Hypothesis comparefn_key : ∀ x y, P x → P y →
  Qle_bool (comparefn x y) 0 = true ↔ (key y <= key x)%Q.

(** An array already in descending order is left as it is. *)
Lemma sort_of_sorted l :
  Forall P l → StronglySorted (descending key) l → sort comparefn l = l.
Proof.
  intros HP Hs. induction Hs as [|x l Hs IH Hx]; [done|].
  apply Forall_cons in HP as [Px Pl]. simpl. rewrite (IH Pl).
  destruct l as [|y l']; [done|]. simpl.
  apply Forall_cons in Hx as [Hxy _]. apply Forall_cons in Pl as [Py _].
  by rewrite (proj2 (comparefn_key x y Px Py) Hxy).
Qed.

End SortMoreFacts.

Section SortRelated.
Context {A B : Type} (R : A → B → Prop) (c1 : A → A → Q) (c2 : B → B → Q).
Hypothesis comparefn_related : ∀ a b a' b', R a b → R a' b' →
  Qle_bool (c1 a a') 0 = Qle_bool (c2 b b') 0.

Lemma sort_insert_Forall2 x y l l' :
  R x y → Forall2 R l l' → Forall2 R (sort_insert c1 x l) (sort_insert c2 y l').
Proof.
  intros Hxy Hl. induction Hl as [|a b l l' Hab Hl IH]; simpl.
  - by repeat constructor.
  - rewrite (comparefn_related x y a b Hxy Hab).
    destruct (Qle_bool (c2 y b) 0); by repeat constructor.
Qed.

Lemma sort_Forall2 l l' : Forall2 R l l' → Forall2 R (sort c1 l) (sort c2 l').
Proof.
  induction 1 as [|a b l l' Hab Hl IH]; simpl; [constructor|].
  by apply sort_insert_Forall2.
Qed.

Lemma slice_Forall2 l l' a b : Forall2 R l l' → Forall2 R (slice l a b) (slice l' a b).
Proof.
  intros Hl. unfold slice, len. rewrite <- (Forall2_length _ _ _ Hl).
  by apply Forall2_take, Forall2_drop.
Qed.

End SortRelated.

Module RerankMoreFacts.
Import OpenAI Reranker DiversitySpec DiversityFacts RerankSpec RerankFacts.
Import CombinedReranker RerankMoreSpec.

(** With every ticket new, the walk accepts candidates until the budget
    is reached. *)
Lemma diversityLoop_distinct topK l acc (selectedTickets : gset string) :
  NoDup (map source l) → (∀ r, r ∈ l → source r ∉ selectedTickets) →
  len acc < topK →
  (diversityLoop topK l (acc, selectedTickets)).1
  = acc ++ take (Z.to_nat (topK - len acc)) l.
Proof.
  revert acc selectedTickets.
  induction l as [|r rest IH]; intros acc selectedTickets Hnd Hnew Hlt; simpl.
  { by rewrite take_nil, app_nil_r. }
  apply NoDup_cons in Hnd as [Hr Hnd].
  rewrite decide_False by (apply Hnew; left). simpl.
  assert (len (acc ++ [r]) = len acc + 1) as Hlen
    by (unfold len; rewrite length_app; simpl; lia).
  rewrite Hlen. replace (Z.to_nat (topK - len acc)) with (S (Z.to_nat (topK - len acc - 1)))
    by lia.
  simpl. destruct (Z.leb_spec topK (len acc + 1)).
  - simpl. replace (Z.to_nat (topK - len acc - 1)) with 0%nat by lia. by rewrite take_0.
  - rewrite IH; [|done| |lia].
    + rewrite Hlen. rewrite <- app_assoc. simpl. do 3 f_equal. lia.
    + intros r' Hr'. apply not_elem_of_union. split; [apply Hnew; by right|].
      apply not_elem_of_singleton. intros Heq. apply Hr.
      change (source r ∈ source <$> rest). fold (source r) in Heq.
      fold (source r') in Heq. rewrite <- Heq. by apply list_elem_of_fmap_2.
Qed.

Lemma scored_sources rerankScores results :
  map source (scored rerankScores results)
  = map (fun c => c.(metadata).(ticketUid)) results.
Proof.
  apply list_eq. intros i. change (map ?f ?l) with (f <$> l).
  unfold scored. rewrite !list_lookup_fmap, list_lookup_imap.
  by destruct (results !! i).
Qed.

Lemma rerankWithCombinedScoring_returns config scorer query results topK ow rw :
  config.(Config.apiKey) ≠ "" → results ≠ [] →
  rerankWithCombinedScoring config scorer query results topK ow rw
  = Returned
      (slice (sort byRerankScoreDesc
                (imap (fun index result =>
                         {| rid := result.(id);
                            rtext := result.(text);
                            rscore :=
                              (fun rerankScore =>
                                 default 0.3 ow * result.(score)
                                 + default 0.7 rw * rerankScore)%Q
                                <$> scoresOf (scorer query (map text results))
                                             (map text results) !! index;
                            originalIndex := index;
                            rmetadata := result.(metadata) |}) results))
             0 (default config.(Config.retrieval).(Config.rerankTopK) topK)).
Proof.
  intros Hk Hne. unfold rerankWithCombinedScoring.
  destruct results as [|c results]; [done|].
  change (length (c :: results) =? 0)%nat with false. cbv iota.
  by rewrite rerankChunks_returns.
Qed.

Lemma combines_compare ow rw q a b a' b' :
  (0 < ow)%Q → combines ow rw q a b → combines ow rw q a' b' →
  Qle_bool (VectorStore.byScoreDesc a a') 0 = Qle_bool (byRerankScoreDesc b b') 0.
Proof.
  intros Hw (_ & _ & _ & Hb) (_ & _ & _ & Hb').
  unfold VectorStore.byScoreDesc, byRerankScoreDesc. rewrite Hb, Hb'.
  apply eq_true_iff_eq. rewrite !Qle_bool_iff. split; intros H; nra.
Qed.

End RerankMoreFacts.

Section RerankMoreClaims.
Import OpenAI Reranker DiversitySpec DiversityFacts RerankSpec RerankFacts.
Import CombinedReranker RerankMoreSpec RerankMoreFacts.

(** X11. Without an API key every reranker that asks for scores throws
    "OPENAI_API_KEY not set in environment" on a non-empty candidate
    list: the default scores of [rerankChunks] do not cover a missing
    key.  On an empty list they return [[]] without asking for a client. *)
Theorem rerank_missing_key config scorer query results topK ow rw :
  config.(Config.apiKey) = "" →
  let message := "OPENAI_API_KEY not set in environment" in
  rerankChunks config scorer query (map text results) = Thrown message
  ∧ (results ≠ [] →
       rerankWithOpenAI config scorer query results topK = Thrown message
       ∧ rerankWithCombinedScoring config scorer query results topK ow rw = Thrown message
       ∧ rerankWithDiversity config scorer query results topK = Thrown message)
  ∧ (results = [] →
       rerankWithOpenAI config scorer query results topK = Returned []
       ∧ rerankWithCombinedScoring config scorer query results topK ow rw = Returned []
       ∧ rerankWithDiversity config scorer query results topK = Returned []).
Proof.
  intros Hk message.
  assert (∀ chunks, rerankChunks config scorer query chunks = Thrown message) as Hchunks.
  { intros chunks. unfold rerankChunks, getOpenAIClient. by rewrite Hk. }
  split; [apply Hchunks|]. split.
  - intros Hne. destruct results as [|c results]; [done|].
    unfold rerankWithDiversity, rerankWithCombinedScoring, rerankWithOpenAI.
    change (length (c :: results) =? 0)%nat with false. cbv iota.
    by rewrite !Hchunks.
  - by intros ->.
Qed.

(** X12. With a key, one score per candidate and a budget [topK] of at
    least 0, [rerankWithOpenAI] returns min(topK, n) results: the head of
    the candidates in descending order of score, so that no candidate
    left out scores more than one returned; every result carries the id,
    text, metadata and score of the candidate at its [originalIndex]. *)
Theorem rerankWithOpenAI_top config scorer query results topK :
  let K := default config.(Config.retrieval).(Config.rerankTopK) topK in
  config.(Config.apiKey) ≠ "" → results ≠ [] →
  match scorer query (map text results) with
  | ScoresParsed scores => (length results ≤ length scores)%nat
  | ScoringFailed => True
  end →
  0 ≤ K →
  ∃ scores out rest,
    rerankChunks config scorer query (map text results) = Returned scores
    ∧ rerankWithOpenAI config scorer query results topK = Returned out
    ∧ len out = Z.min K (len results)
    ∧ out ++ rest ≡ₚ scored scores results
    ∧ StronglySorted scoresAtLeast (out ++ rest)
    ∧ ∀ r, r ∈ out →
        ∃ c, results !! r.(originalIndex) = Some c
             ∧ r.(rid) = c.(id) ∧ r.(rtext) = c.(text)
             ∧ r.(rmetadata) = c.(metadata)
             ∧ r.(rscore) = scores !! r.(originalIndex).
Proof.
  intros K Hk Hne Hreply HK.
  pose proof (rerankWithOpenAI_returns config scorer query results topK Hk Hne) as Hr.
  set (scores := scoresOf _ _) in Hr. set (X := scored scores results) in Hr.
  fold K in Hr. rewrite slice_0_take in Hr by done.
  assert (Forall hasScore X) as HX.
  { apply scored_hasScore. rewrite <- (length_map text results) at 1.
    apply scoresOf_length. by rewrite length_map. }
  assert (sort byRerankScoreDesc X ≡ₚ X) as Hperm by apply sort_Permutation.
  exists scores, (take (Z.to_nat K) (sort byRerankScoreDesc X)),
    (drop (Z.to_nat K) (sort byRerankScoreDesc X)).
  split_and!; [by apply rerankChunks_returns|done| | | |].
  - unfold len. rewrite length_take, sort_length. unfold X, scored.
    rewrite length_imap. lia.
  - by rewrite take_drop.
  - rewrite take_drop. apply descending_scoresAtLeast; [by apply sort_Forall|].
    by apply (sort_sorted _ _ hasScore byRerankScoreDesc_key).
  - intros r Hin. apply elem_of_take in Hin as (i & Hin & _).
    apply list_elem_of_lookup_2 in Hin. rewrite Hperm in Hin.
    apply elem_of_lookup_imap_1 in Hin as (j & c & -> & Hc). by exists c.
Qed.

(** X13. When no two candidates come from the same ticket and the budget
    is at least 1, the diversity filter changes nothing:
    [rerankWithDiversity] returns what [rerankWithOpenAI] returns for the
    same budget. *)
Theorem rerankWithDiversity_distinct_tickets config scorer query results topK :
  let K := default config.(Config.retrieval).(Config.rerankTopK) topK in
  config.(Config.apiKey) ≠ "" →
  NoDup (map (fun c => c.(metadata).(ticketUid)) results) →
  1 ≤ K →
  rerankWithDiversity config scorer query results topK
  = rerankWithOpenAI config scorer query results topK.
Proof.
  intros K Hk Hnd HK. destruct (decide (results = [])) as [->|Hne]; [done|].
  pose proof (rerankWithOpenAI_returns config scorer query results topK Hk Hne) as Hr.
  pose proof (rerankWithOpenAI_returns config scorer query results
                (Some (len results)) Hk Hne) as Hall.
  set (X := scored _ results) in *. simpl default in Hall. fold K in Hr.
  rewrite slice_0_full in Hall by (unfold len; rewrite sort_length; unfold X, scored;
                                   rewrite length_imap; lia).
  rewrite (rerankWithDiversity_walks _ _ _ _ _ _ Hall), Hr. fold K. f_equal.
  unfold diverse. rewrite diversityLoop_distinct.
  - simpl. rewrite slice_0_take by lia. f_equal. unfold len. simpl. lia.
  - assert (map source (sort byRerankScoreDesc X) ≡ₚ map source X) as ->
      by apply Permutation_map, sort_Permutation.
    unfold X. by rewrite scored_sources.
  - intros r _. apply not_elem_of_empty.
  - unfold len. simpl. lia.
Qed.


(** X15. A second call of [rerankByScore] on the same array changes
    nothing and returns the same results; on an array already in
    descending order of score, as [hybridSearch] returns it, the first
    call leaves every array as it was. *)
Theorem rerankByScore_settled config results topK (h : heap) arr :
  h !! results = Some arr →
  ∃ out h',
    rerankByScore config results topK h = Some (out, h')
    ∧ rerankByScore config results topK h' = Some (out, h')
    ∧ (StronglySorted (fun a b => (b.(score) <= a.(score))%Q) arr → h' = h).
Proof.
  intros Harr. unfold rerankByScore. rewrite Harr.
  set (sorted := sort VectorStore.byScoreDesc arr).
  eexists _, _. split; [reflexivity|].
  assert (<[results:=sorted]> h !! results = Some sorted) as Hsorted
    by apply lookup_insert_eq.
  assert (∀ l, StronglySorted (fun a b => (b.(score) <= a.(score))%Q) l →
               sort VectorStore.byScoreDesc l = l) as Hid.
  { intros l Hl.
    apply (sort_of_sorted _ score (fun _ => True)); [|apply Forall_True|done].
    intros x y _ _. apply byScoreDesc_key. }
  split.
  - rewrite Hsorted. rewrite (Hid sorted).
    + do 2 f_equal. apply insert_insert_eq.
    + apply (sort_sorted _ score (fun _ => True)); [|apply Forall_True].
      intros x y _ _. apply byScoreDesc_key.
  - intros Hs. unfold sorted. rewrite (Hid arr Hs). by apply insert_id.
Qed.

End RerankMoreClaims.

(** * The retrieval facade, continued *)

Module SelectorFacts.
Import VectorStore FusionSpec FusionFacts Selector SelectorMore SelectorSpec.
Import RoundTripFacts.

Lemma prefix_spec m s : String.prefix m s = true ↔ ∃ post, s = m +:+ post.
Proof.
  revert m. induction s as [|b s IH]; intros [|a m]; simpl.
  - split; [by exists EmptyString|done].
  - split; [done|]. intros (post & H). by rewrite string_app_String in H.
  - split; [by eexists|done].
  - destruct (Ascii.ascii_dec a b) as [->|Hne].
    + rewrite IH. split; intros (post & H); exists post.
      * by rewrite string_app_String, H.
      * rewrite string_app_String in H. by injection H.
    + split; [done|]. intros (post & H). rewrite string_app_String in H.
      injection H as H _. by destruct Hne.
Qed.

(** [includes] holds of the strings that contain the search string. *)
Lemma includes_spec s m : includes s m = true ↔ ∃ pre post, s = pre +:+ m +:+ post.
Proof.
  induction s as [|c s IH].
  - cbn [includes]. rewrite orb_false_r, prefix_spec. split.
    + intros (post & H). by exists EmptyString, post.
    + intros ([|c pre] & post & H); [by exists post|].
      by rewrite string_app_String in H.
  - cbn [includes]. rewrite orb_true_iff, prefix_spec, IH. split.
    + intros [(post & H)|(pre & post & H)].
      * by exists EmptyString, post.
      * exists (String c pre), post. by rewrite string_app_String, H.
    + intros ([|c' pre] & post & H).
      * left. by exists post.
      * right. exists pre, post. rewrite string_app_String in H. by injection H.
Qed.

Lemma differs_spec value wanted : differs value wanted = false ↔ value = Some wanted.
Proof.
  destruct value as [v|]; simpl; [|done].
  rewrite negb_false_iff, Z.eqb_eq. split; [by intros ->|by intros [= ->]].
Qed.

Lemma wanted_spec (field : option Z) (value : option Z) :
  match field with
  | Some wanted => differs value wanted
  | None => false
  end = false
  ↔ ∀ wanted, field = Some wanted → value = Some wanted.
Proof.
  destruct field as [w|].
  - rewrite differs_spec. split; [by intros -> ? [= <-]|by intros H; apply H].
  - split; [done|by intros _].
Qed.

Lemma mask_spec (field : option string) (mask : string) :
  Ingest.truthy field && negb (includes mask (default EmptyString field)) = false
  ↔ ∀ m, field = Some m → m ≠ EmptyString → ∃ pre post, mask = pre +:+ m +:+ post.
Proof.
  destruct field as [m|]; simpl; [|by split].
  destruct (String.eqb_spec m "") as [->|Hm]; simpl.
  - split; [by intros _ ? [= <-]|done].
  - rewrite negb_false_iff, includes_spec. split.
    + by intros H ? [= <-] _.
    + intros H. by apply H.
Qed.

Lemma passes_spec f c : passes f c = true ↔ matching (Some f) c.
Proof.
  unfold passes, matching.
  pose proof (wanted_spec (Filters.groupId f) (groupId (metadata c))) as Hg.
  pose proof (wanted_spec (Filters.bucketId f) (bucketId (metadata c))) as Hb.
  pose proof (mask_spec (Filters.ticketMask f) (ticketMask (metadata c))) as Hm.
  destruct (match Filters.groupId f with Some _ => _ | None => _ end).
  { split; [done|]. intros H. destruct (H f eq_refl) as (H1 & _).
    by apply Hg in H1. }
  destruct (match Filters.bucketId f with Some _ => _ | None => _ end).
  { split; [done|]. intros H. destruct (H f eq_refl) as (_ & H2 & _).
    by apply Hb in H2. }
  destruct (Ingest.truthy _ && _).
  { split; [done|]. intros H. destruct (H f eq_refl) as (_ & _ & H3).
    by apply Hm in H3. }
  split; [|done]. intros _ f' [= <-]. split_and!.
  - by apply Hg.
  - by apply Hb.
  - by apply Hm.
Qed.

Lemma first_occurrences_NoDup l : NoDup (first_occurrences l).
Proof. apply foldl_note_id_NoDup. constructor. Qed.

Lemma hybridSearch_ids_NoDup e query emb ktk stk :
  NoDup (map id (hybridSearch e query emb ktk stk)).
Proof.
  rewrite hybridSearch_ranked, ids_ranked. apply first_occurrences_NoDup.
Qed.

Lemma retrieveRelevantChunks_returns config generateEmbedding chroma query emb :
  generateEmbedding query = Returned emb →
  retrieveRelevantChunks config generateEmbedding chroma query
  = Returned
      (filter (fun r => Qle_bool config.(Config.retrieval).(Config.minSimilarityScore)
                          r.(score))
              (hybridSearch chroma query emb
                 (Some config.(Config.retrieval).(Config.keywordTopK))
                 (Some config.(Config.retrieval).(Config.semanticTopK)))).
Proof. intros H. unfold retrieveRelevantChunks. by rewrite H. Qed.

End SelectorFacts.

Section SelectorMoreClaims.
Import VectorStore FusionSpec FusionFacts Selector SelectorMore SelectorSpec.
Import RerankFacts SelectorFacts.



End SelectorMoreClaims.

(** * Similar tickets *)

Module SimilarFacts.
Import VectorStore SelectorMore SimilarSpec.

Lemma get_Some_elem {V} (m : JsMap.t V) k v : JsMap.get k m = Some v → (k, v) ∈ m.
Proof.
  induction m as [|[k' v'] m IH]; simpl; [done|].
  destruct (String.eqb_spec k k') as [->|Hne].
  - intros [= ->]. left.
  - intros H. right. by apply IH.
Qed.

Lemma elem_keys {V} (m : JsMap.t V) k v : (k, v) ∈ m → k ∈ JsMap.keys m.
Proof.
  intros H. unfold JsMap.keys. change (map fst m) with (fst <$> m).
  by apply (list_elem_of_fmap_2 fst) in H.
Qed.

Lemma set_Forall {V} (R : string * V → Prop) (m : JsMap.t V) k v :
  NoDup (JsMap.keys m) →
  Forall (fun kv => kv.1 ≠ k → R kv) m → R (k, v) → Forall R (JsMap.set k v m).
Proof.
  intros Hnd Hm Hv. induction Hm as [|[k' v'] m Hkv Hm IH]; simpl.
  - by repeat constructor.
  - simpl in Hnd. apply NoDup_cons in Hnd as [Hk' Hnd].
    destruct (String.eqb_spec k k') as [->|Hne].
    + constructor; [done|]. apply Forall_forall. intros [k v''] Hin.
      rewrite Forall_forall in Hm. apply (Hm _ Hin). simpl. intros ->.
      apply Hk'. by eapply elem_keys.
    + constructor; [|by apply IH]. apply Hkv. simpl. congruence.
Qed.

Lemma Math_max_l a b : (a <= Math_max a b)%Q.
Proof.
  unfold Math_max. destruct (Qle_bool a b) eqn:E; [by apply Qle_bool_iff|apply Qle_refl].
Qed.

Lemma Math_max_r a b : (b <= Math_max a b)%Q.
Proof.
  unfold Math_max. destruct (Qle_bool a b) eqn:E; [apply Qle_refl|].
  apply Qlt_le_weak, Qnot_le_lt. intros H. apply Qle_bool_iff in H. congruence.
Qed.

Lemma good_snoc_other l r kv : ticketOf r ≠ kv.1 → good l kv → good (l ++ [r]) kv.
Proof.
  intros Hne (Hc & Hrest). unfold good.
  rewrite filter_app, filter_cons_False, filter_nil, app_nil_r by done. by rewrite <- Hc.
Qed.

(** One turn of the [forEach]. *)
Lemma noteResult_grouped ticketUid l m r :
  grouped ticketUid l m → grouped ticketUid (l ++ [r]) (noteResult ticketUid m r).
Proof.
  intros (Hnd & Hkeys & Hgood). unfold noteResult.
  destruct (String.eqb_spec (ticketOf r) ticketUid) as [Heq|Hne].
  - split_and!; [done| |].
    + intros k. rewrite Hkeys. split; intros [Hk (r' & Hr' & Ht)]; (split; [done|]).
      * exists r'. split; [|done]. apply elem_of_app. by left.
      * apply elem_of_app in Hr' as [Hr'|Hr']; [by exists r'|].
        apply list_elem_of_singleton in Hr' as ->. congruence.
    + apply Forall_forall. intros [k e] Hin. rewrite Forall_forall in Hgood.
      apply good_snoc_other; [|by apply Hgood]. simpl.
      apply elem_keys, Hkeys in Hin as [Hk _]. congruence.
  - destruct (JsMap.get (ticketOf r) m) as [e|] eqn:G.
    + pose proof (get_Some_elem _ _ _ G) as Hin.
      pose proof (elem_keys _ _ _ Hin) as Hkey.
      assert (good l (ticketOf r, e)) as (Hc & Hn & Hle & Hex).
      { rewrite Forall_forall in Hgood. by apply Hgood. }
      simpl in Hc, Hn, Hle, Hex.
      split_and!.
      * by rewrite keys_set, decide_True.
      * intros k. rewrite keys_set, decide_True by done. rewrite Hkeys.
        split; intros [Hk (r' & Hr' & Ht)]; (split; [done|]).
        -- exists r'. split; [|done]. apply elem_of_app. by left.
        -- apply elem_of_app in Hr' as [Hr'|Hr']; [by exists r'|].
           apply list_elem_of_singleton in Hr' as ->. subst k.
           by apply Hkeys in Hkey as [_ ?].
      * apply set_Forall; [done| |].
        -- eapply Forall_impl; [exact Hgood|]. intros kv Hkv Hk.
           apply good_snoc_other; [congruence|done].
        -- unfold good. simpl. split_and!.
           ++ by rewrite filter_app, filter_cons_True, filter_nil, Hc.
           ++ intros H. by apply app_eq_nil in H as [_ ?].
           ++ apply Forall_app. split; [|by repeat constructor; apply Math_max_r].
              eapply Forall_impl; [exact Hle|]. intros r' Hr'. simpl in Hr'.
              eapply Qle_trans; [exact Hr'|apply Math_max_l].
           ++ apply Exists_app. unfold Math_max.
              destruct (Qle_bool (TicketScore.score e) (score r)).
              ** right. by left.
              ** by left.
    + apply get_None in G.
      assert (filter (fun r' => ticketOf r' = ticketOf r) l = []) as Hnone.
      { destruct (filter _ l) as [|x xs] eqn:F; [done|].
        assert (x ∈ filter (fun r' => ticketOf r' = ticketOf r) l) as Hx
          by (rewrite F; left).
        apply list_elem_of_filter in Hx as [Hx Hxl]. destruct G.
        apply Hkeys. split; [done|]. by exists x. }
      split_and!.
      * rewrite keys_set, decide_False by done. apply NoDup_app. split_and!; [done| |].
        -- intros k Hk ->%list_elem_of_singleton. done.
        -- apply NoDup_singleton.
      * intros k. rewrite keys_set, decide_False by done.
        rewrite elem_of_app, Hkeys, list_elem_of_singleton. split.
        -- intros [[Hk (r' & Hr' & Ht)]| ->].
           ++ split; [done|]. exists r'. split; [|done]. apply elem_of_app. by left.
           ++ split; [done|]. exists r. split; [|done]. apply elem_of_app. right. left.
        -- intros [Hk (r' & Hr' & Ht)].
           apply elem_of_app in Hr' as [Hr'|Hr']; [left; split; [done|by exists r']|].
           apply list_elem_of_singleton in Hr' as ->. by right.
      * apply set_Forall; [done| |].
        -- eapply Forall_impl; [exact Hgood|]. intros kv Hkv Hk.
           apply good_snoc_other; [congruence|done].
        -- unfold good. simpl. split_and!; [|done| |].
           ++ by rewrite filter_app, filter_cons_True, filter_nil, Hnone.
           ++ repeat constructor. apply Qle_refl.
           ++ left. reflexivity.
Qed.

Lemma foldl_grouped ticketUid l : grouped ticketUid l (foldl (noteResult ticketUid) [] l).
Proof.
  induction l as [|r l IH] using rev_ind.
  - split_and!; [constructor| |constructor].
    intros k. split; [by intros ?%elem_of_nil|]. by intros [_ (r & ?%elem_of_nil & _)].
  - rewrite foldl_snoc. by apply noteResult_grouped.
Qed.

Lemma byTicketScoreDesc_key (x y : string * TicketScore.t) :
  Qle_bool (byTicketScoreDesc x y) 0 = true
  ↔ (y.2.(TicketScore.score) <= x.2.(TicketScore.score))%Q.
Proof.
  unfold byTicketScoreDesc. rewrite Qle_bool_iff. split; intros H; lra.
Qed.

Lemma slice_sublist {A} (l : list A) a b : slice l a b `sublist_of` l.
Proof. unfold slice. etrans; [apply sublist_take|apply sublist_drop]. Qed.

Lemma StronglySorted_lookup {A} (R : A → A → Prop) (l : list A) i j a b :
  StronglySorted R l → (i < j)%nat → l !! i = Some a → l !! j = Some b → R a b.
Proof.
  intros Hs. revert i j. induction Hs as [|x l Hs IH Hx]; intros i j Hij Hi Hj; [done|].
  destruct j as [|j]; [lia|]. destruct i as [|i]; simpl in *.
  - injection Hi as <-. rewrite Forall_forall in Hx. apply Hx.
    by eapply list_elem_of_lookup_2.
  - apply (IH i j); [lia|done..].
Qed.

(** The first chunk of every entry read. *)
Lemma first_chunks l (top : list (string * TicketScore.t)) :
  Forall (good l) top →
  ∃ out,
    map (fun entry : string * TicketScore.t => head entry.2.(TicketScore.chunks)) top
    = map Some out
    ∧ Forall2 (fun kv c => head kv.2.(TicketScore.chunks) = Some c) top out.
Proof.
  induction 1 as [|kv top (_ & Hn & _) _ (out & Hmap & Hall)].
  - by exists [].
  - destruct (TicketScore.chunks kv.2) as [|c cs] eqn:E; [done|].
    exists (c :: out). simpl. rewrite E, Hmap. split; [done|]. constructor; [|done].
    by rewrite E.
Qed.

Lemma good_head l kv c :
  good l kv → head kv.2.(TicketScore.chunks) = Some c →
  kv.1 = ticketOf c ∧ c ∈ kv.2.(TicketScore.chunks)
  ∧ ∃ pre post, l = pre ++ c :: post ∧ Forall (fun r => ticketOf r ≠ ticketOf c) pre.
Proof.
  intros (Hc & _) Hhead.
  assert (c ∈ TicketScore.chunks kv.2) as Hin.
  { destruct (TicketScore.chunks kv.2); [done|]. injection Hhead as ->. left. }
  assert (kv.1 = ticketOf c) as Hk.
  { rewrite Hc in Hin. by apply list_elem_of_filter in Hin as [-> _]. }
  split_and!; [done..|]. rewrite Hc in Hhead.
  apply head_filter_Some in Hhead as (pre & post & -> & Hpre).
  exists pre, post. split; [done|]. by rewrite <- Hk.
Qed.

End SimilarFacts.

Section SimilarClaims.
Import VectorStore SelectorMore SimilarSpec SimilarFacts RerankFacts.


End SimilarClaims.

(** * One-sided retrieval *)

Module OneSidedFacts.
Import VectorStore FusionSpec FusionFacts Selector SelectorMore.

Lemma set_fresh {V} (m : JsMap.t V) k v :
  k ∉ JsMap.keys m → JsMap.set k v m = m ++ [(k, v)].
Proof.
  induction m as [|[k' v'] m IH]; simpl; [done|]. intros Hk.
  apply not_elem_of_cons in Hk as [Hne Hk].
  destruct (String.eqb_spec k k'); [done|]. by rewrite IH.
Qed.

Lemma keys_app {V} (m m' : JsMap.t V) : JsMap.keys (m ++ m') = JsMap.keys m ++ JsMap.keys m'.
Proof. unfold JsMap.keys. apply map_app. Qed.

(** Candidates of new, pairwise different ids are appended as they come. *)
Lemma foldl_fresh (f : JsMap.t SearchResult → SearchResult → JsMap.t SearchResult)
    (g : SearchResult → SearchResult) m l :
  (∀ m r, r.(id) ∉ JsMap.keys m → f m r = m ++ [(r.(id), g r)]) →
  NoDup (map id l) → (∀ r, r ∈ l → r.(id) ∉ JsMap.keys m) →
  foldl f m l = m ++ map (fun r => (r.(id), g r)) l.
Proof.
  intros Hf. revert m. induction l as [|r l IH]; intros m Hnd Hm; simpl.
  { by rewrite app_nil_r. }
  apply NoDup_cons in Hnd as [Hr Hnd].
  rewrite Hf by (apply Hm; left). rewrite IH; [by rewrite <- app_assoc|done|].
  intros r' Hr'. rewrite keys_app. apply not_elem_of_app. split; [apply Hm; by right|].
  simpl. intros Heq%list_elem_of_singleton. apply Hr. rewrite <- Heq.
  by apply (list_elem_of_fmap_2 id).
Qed.

Lemma addKeyword_fresh m r :
  r.(id) ∉ JsMap.keys m →
  addKeyword m r = m ++ [(r.(id), withScore r (r.(score) * 1.2)%Q)].
Proof. intros H. unfold addKeyword. by apply (set_fresh m). Qed.

Lemma addSemantic_fresh m r :
  r.(id) ∉ JsMap.keys m → addSemantic m r = m ++ [(r.(id), r)].
Proof.
  intros H. unfold addSemantic. rewrite (proj2 (get_None m r.(id)) H).
  by apply set_fresh.
Qed.

Lemma values_entries (g : SearchResult → SearchResult) l :
  JsMap.values (map (fun r => (r.(id), g r)) l) = map g l.
Proof. unfold JsMap.values. rewrite map_map. done. Qed.

Lemma ranked_semantic_only sem :
  NoDup (map id sem) → ranked [] sem = sort byScoreDesc sem.
Proof.
  intros Hnd. unfold ranked, fuse. simpl.
  rewrite (foldl_fresh addSemantic (fun r => r)); [|apply addSemantic_fresh|done|].
  - simpl. by rewrite values_entries, map_id.
  - intros r _. apply not_elem_of_nil.
Qed.

Lemma ranked_keyword_only kw :
  NoDup (map id kw) →
  ranked kw [] = sort byScoreDesc (map (fun r => withScore r (r.(score) * 1.2)%Q) kw).
Proof.
  intros Hnd. unfold ranked, fuse. simpl.
  rewrite (foldl_fresh addKeyword (fun r => withScore r (r.(score) * 1.2)%Q));
    [|apply addKeyword_fresh|done|].
  - simpl. by rewrite values_entries.
  - intros r _. apply not_elem_of_nil.
Qed.

Lemma filter_filter_floor (lo hi : Q) (l : list SearchResult) :
  (lo <= hi)%Q →
  filter (fun r => Qle_bool hi r.(score)) (filter (fun r => Qle_bool lo r.(score)) l)
  = filter (fun r => Qle_bool hi r.(score)) l.
Proof.
  intros Hle. apply list_filter_filter_l. intros r Hhi.
  apply Is_true_true, Qle_bool_iff. apply Is_true_true, Qle_bool_iff in Hhi.
  by eapply Qle_trans.
Qed.

End OneSidedFacts.

Section OneSidedClaims.
Import VectorStore FusionSpec FusionFacts Selector SelectorMore SelectorFacts.
Import OneSidedFacts RerankFacts.



End OneSidedClaims.

(** * Examples of the further properties *)

Section MoreExamples.
Import Js Chunker VectorStore Selector OpenAI Reranker CombinedReranker SelectorMore.
Import DiversitySpec RerankSpec RerankMoreSpec SelectorSpec SimilarSpec Examples.

(** Five words in windows of three that share one word. *)
Lemma chunkText_filters_legacy_witness :
  1 ≤ 3 - 1
  ∧ Forall (fun w => w ≠ EmptyString) (split_ws "a b c d e")
  ∧ chunkText cfgNoFloor "a b c d e" (Some 3) (Some 1)
    = filter (fun c => Config.minChunkSize (Config.chunking cfgNoFloor)
                       ≤ Z.of_nat (String.length c))
        <$> ChunkerLegacy.chunkText (length (split_ws "a b c d e")) "a b c d e"
              (Some 3) (Some 1).
Proof.
  assert (1 ≤ 3 - 1) as Hstep by lia.
  assert (Forall (fun w => w ≠ EmptyString) (split_ws "a b c d e")) as Hpieces.
  { change (split_ws "a b c d e") with ["a"; "b"; "c"; "d"; "e"].
    repeat (apply Forall_cons_2; [discriminate|]). apply Forall_nil_2. }
  split; [exact Hstep|]. split; [exact Hpieces|].
  exact (chunkText_filters_legacy cfgNoFloor "a b c d e" 3 1 Hstep Hpieces).
Defined.

Example legacy_chunkText_five_words :
  ChunkerLegacy.chunkText 5 "a b c d e" (Some 3) (Some 1) = Some ["a b c"; "c d e"]
  ∧ ChunkerLegacy.chunkText 5 "a b c d e" (Some 3) (Some 3) = None.
Proof. split; reflexivity. Qed.

(** Four candidates and no key. *)
Lemma rerank_missing_key_witness :
  Config.apiKey cfgNoKey = ""
  ∧ rerankWithOpenAI cfgNoKey failing "q" fourHits None
    = Thrown "OPENAI_API_KEY not set in environment"
  ∧ rerankWithDiversity cfgNoKey failing "q" fourHits None
    = Thrown "OPENAI_API_KEY not set in environment".
Proof.
  assert (Config.apiKey cfgNoKey = "") as Hk by reflexivity.
  destruct (rerank_missing_key cfgNoKey failing "q" fourHits None None None Hk)
    as (_ & Hthrown & _).
  destruct Hthrown as (H1 & _ & H3); [done|]. split; [exact Hk|]. split; assumption.
Defined.

(** Four candidates graded 6, 9, 7 and 8, and a budget of 2. *)
Lemma rerankWithOpenAI_top_witness :
  Config.apiKey cfg ≠ "" ∧ fourHits ≠ [] ∧ 0 ≤ 2
  ∧ ∃ out rest,
      rerankWithOpenAI cfg (grading [6; 9; 7; 8]%Q) "q" fourHits (Some 2) = Returned out
      ∧ len out = Z.min 2 (len fourHits)
      ∧ StronglySorted scoresAtLeast (out ++ rest).
Proof.
  assert (Config.apiKey cfg ≠ "") as Hk by done.
  assert (fourHits ≠ []) as Hne by done.
  assert (match grading [6; 9; 7; 8]%Q "q" (map text fourHits) with
          | ScoresParsed scores => (length fourHits ≤ length scores)%nat
          | ScoringFailed => True
          end) as Hs by (simpl; lia).
  assert (0 ≤ 2) as HK by lia.
  destruct (rerankWithOpenAI_top cfg (grading [6; 9; 7; 8]%Q) "q" fourHits (Some 2)
              Hk Hne Hs HK)
    as (scores & out & rest & _ & Hout & Hlen & _ & Hsorted & _).
  split_and!; [done..|]. exists out, rest. split_and!; assumption.
Defined.

Example rerankWithOpenAI_top_example :
  ∃ out,
    rerankWithOpenAI cfg (grading [6; 9; 7; 8]%Q) "q" fourHits (Some 2) = Returned out
    ∧ map rid out = ["a2"; "b1"] ∧ map originalIndex out = [1; 3]%nat.
Proof. eexists. split; [reflexivity|]. split; reflexivity. Qed.

(** Two candidates of two tickets. *)
Lemma rerankWithDiversity_distinct_tickets_witness :
  Config.apiKey cfg ≠ ""
  ∧ NoDup (map (fun c => c.(metadata).(ticketUid))
               [hit "a1" "A" 0.9; hit "b1" "B" 0.6])
  ∧ 1 ≤ 5
  ∧ rerankWithDiversity cfg failing "q" [hit "a1" "A" 0.9; hit "b1" "B" 0.6] None
    = rerankWithOpenAI cfg failing "q" [hit "a1" "A" 0.9; hit "b1" "B" 0.6] None.
Proof.
  assert (Config.apiKey cfg ≠ "") as Hk by done.
  assert (NoDup (map (fun c => c.(metadata).(ticketUid))
                     [hit "a1" "A" 0.9; hit "b1" "B" 0.6])) as Hnd.
  { apply NoDup_cons_2; [|apply NoDup_singleton].
    intros H%list_elem_of_singleton. discriminate. }
  assert (1 ≤ 5) as HK by lia.
  split; [exact Hk|]. split; [exact Hnd|]. split; [exact HK|].
  exact (rerankWithDiversity_distinct_tickets cfg failing "q" _ None Hk Hnd HK).
Defined.


Example rerankWithCombinedScoring_fallback_example :
  ∃ out,
    rerankWithCombinedScoring cfg failing "q" (rev fourHits) (Some 2) None None
    = Returned out
    ∧ map rid out = ["a1"; "a2"] ∧ map id (rev fourHits) = ["b1"; "a3"; "a2"; "a1"].
Proof. eexists. split; [reflexivity|]. split; reflexivity. Qed.

(** An array in ascending order, and one in descending order. *)
Lemma rerankByScore_settled_witness :
  unsortedHeap !! 1%positive = Some [hit "a" "A" 0.2; hit "b" "B" 0.9]
  ∧ sortedHeap !! 1%positive = Some [hit "b" "B" 0.9; hit "a" "A" 0.2]
  ∧ (∃ out h',
       rerankByScore cfg 1%positive None unsortedHeap = Some (out, h')
       ∧ rerankByScore cfg 1%positive None h' = Some (out, h'))
  ∧ ∃ out, rerankByScore cfg 1%positive None sortedHeap = Some (out, sortedHeap).
Proof.
  assert (unsortedHeap !! 1%positive = Some [hit "a" "A" 0.2; hit "b" "B" 0.9]) as Hu
    by reflexivity.
  assert (sortedHeap !! 1%positive = Some [hit "b" "B" 0.9; hit "a" "A" 0.2]) as Hs
    by reflexivity.
  destruct (rerankByScore_settled cfg 1%positive None unsortedHeap _ Hu)
    as (out & h' & Hrun & Hagain & _).
  destruct (rerankByScore_settled cfg 1%positive None sortedHeap _ Hs)
    as (out' & h'' & Hrun' & _ & Hsame).
  split_and!; [done|done|by exists out, h'|]. exists out'. rewrite Hrun'.
  rewrite Hsame; [done|]. repeat constructor. vm_compute. discriminate.
Defined.


Example retrieveWithMetadataFilter_group_zero :
  ∃ out wider masked,
    retrieveWithMetadataFilter cfg noEmbedding groupsEngine "q"
      (Some {| Filters.groupId := Some 0; Filters.bucketId := None;
               Filters.ticketMask := Some EmptyString |}) = Returned out
    ∧ map id out = ["p1"; "p3"]
    ∧ retrieveWithMetadataFilter cfg noEmbedding groupsEngine "q"
        (Some {| Filters.groupId := None; Filters.bucketId := None;
                 Filters.ticketMask := None |}) = Returned wider
    ∧ map id wider = ["p1"; "p2"; "p3"]
    ∧ retrieveWithMetadataFilter cfg noEmbedding groupsEngine "q"
        (Some {| Filters.groupId := None; Filters.bucketId := None;
                 Filters.ticketMask := Some "-10" |}) = Returned masked
    ∧ map id masked = ["p1"; "p3"].
Proof. eexists _, _, _. split_and!; reflexivity. Qed.


(** Ticket A is represented by its first hit, of score 0.7, and ranked by
    its best, 0.95. *)
Example findSimilarTickets_first_hit :
  findSimilarTickets noEmbedding ticketsEngine "C" None
  = Returned [Some (hit "a1" "A" 0.7); Some (hit "b1" "B" 0.8)].
Proof. reflexivity. Qed.



End MoreExamples.

(** * Chat *)

Module ChatFacts.
Import Chat.

(** Cutting an array of more than 21 messages back to 21 keeps the
    first and the last twenty. *)
Lemma splice_trim {A} (l : list A) :
  21 < len l →
  splice l 1 (len l - 21) = take 1 l ++ drop (length l - 20) l.
Proof.
  intros Hlen. unfold splice, len in *. simpl.
  rewrite Z.min_l by lia. rewrite Z.max_l by lia. rewrite Z.min_l by lia.
  do 2 f_equal. lia.
Qed.

Lemma head_take_1 {A} (l k : list A) : l ≠ [] → head (take 1 l ++ k) = head l.
Proof. by destruct l. Qed.

End ChatFacts.

Section ChatClaims.
Import VectorStore Selector Reranker Chat ChatFacts ChatExamples.



(** The same conversation with the chat model down: 22 messages. *)
Example processQuery_failure_grows :
  ∃ message history',
    processQuery Examples.cfg chatDown Examples.loginEngine "login" fullHistory
    = (Thrown message, history')
    ∧ length fullHistory = 21%nat ∧ length history' = 22%nat.
Proof. eexists _, _. split; [reflexivity|]. split; reflexivity. Qed.

Example processQuery_success_trims :
  ∃ response history',
    processQuery Examples.cfg answering Examples.loginEngine "login" fullHistory
    = (Returned response, history')
    ∧ length history' = 21%nat
    ∧ response.(tokensUsed) = 168
    ∧ last history' = Some {| role := assistant; content := "Reset the password." |}.
Proof. eexists _, _. split; [reflexivity|]. split_and!; reflexivity. Qed.

End ChatClaims.

(** * One ticket *)

Module OneTicketFacts.
Import OpenAI Reranker DiversitySpec DiversityFacts RerankSpec RerankFacts.

(** With every ticket already represented, the walk accepts candidates
    until half the budget is reached. *)
Lemma diversityLoop_same_ticket topK l acc (selectedTickets : gset string) :
  (∀ r, r ∈ l → source r ∈ selectedTickets) → len acc < topK →
  (diversityLoop topK l (acc, selectedTickets)).1
  = acc ++ take (Z.to_nat ((topK + 1) / 2 - len acc)) l.
Proof.
  revert acc. induction l as [|r rest IH]; intros acc Hall Hlt; simpl.
  { by rewrite take_nil, app_nil_r. }
  rewrite decide_True by (apply Hall; left).
  assert (∀ r', r' ∈ rest → source r' ∈ selectedTickets) as Hrest
    by (intros r' Hr'; apply Hall; by right).
  assert (0 ≤ len acc) as Hpos by (unfold len; lia).
  destruct (belowHalf (length acc) topK) eqn:E.
  - apply belowHalf_spec in E. fold (len acc) in E. simpl.
    assert (len (acc ++ [r]) = len acc + 1) as Hlen
      by (unfold len; rewrite length_app; simpl; lia).
    rewrite Hlen.
    replace (Z.to_nat ((topK + 1) / 2 - len acc))
      with (S (Z.to_nat ((topK + 1) / 2 - len acc - 1)))
      by (Z.div_mod_to_equations; lia).
    simpl. destruct (Z.leb_spec topK (len acc + 1)).
    + simpl. replace (Z.to_nat ((topK + 1) / 2 - len acc - 1)) with 0%nat
        by (Z.div_mod_to_equations; lia).
      by rewrite take_0.
    + rewrite IH by (done || lia). rewrite Hlen, <- app_assoc. simpl.
      do 3 f_equal. lia.
  - assert (¬ 2 * len acc < topK) as Hhalf.
    { intros H. apply (belowHalf_spec (length acc)) in H. congruence. }
    simpl. destruct (Z.leb_spec topK (len acc)); [lia|].
    rewrite IH by done.
    replace (Z.to_nat ((topK + 1) / 2 - len acc)) with 0%nat
      by (Z.div_mod_to_equations; lia).
    by rewrite !take_0.
Qed.

End OneTicketFacts.

Section OneTicketClaims.
Import OpenAI Reranker DiversitySpec DiversityFacts RerankSpec RerankFacts.
Import RerankMoreFacts OneTicketFacts Examples.

(** X22. When all candidates come from one ticket and the budget is at
    least 1, [rerankWithDiversity] returns what [rerankWithOpenAI]
    returns for a budget of ceil(topK / 2). *)
Theorem rerankWithDiversity_one_ticket config scorer query results topK uid :
  let K := default config.(Config.retrieval).(Config.rerankTopK) topK in
  config.(Config.apiKey) ≠ "" →
  Forall (fun c => c.(metadata).(ticketUid) = uid) results →
  1 ≤ K →
  rerankWithDiversity config scorer query results topK
  = rerankWithOpenAI config scorer query results (Some (Qceiling (inject_Z K / 2))).
Proof.
  intros K Hk Hall HK. destruct (decide (results = [])) as [->|Hne]; [done|].
  pose proof (rerankWithOpenAI_returns config scorer query results
                (Some (Qceiling (inject_Z K / 2))) Hk Hne) as Hr.
  pose proof (rerankWithOpenAI_returns config scorer query results
                (Some (len results)) Hk Hne) as Hfull.
  set (X := scored _ results) in *. simpl default in Hr, Hfull.
  assert (length X = length results) as HlenX by apply length_imap.
  rewrite slice_0_full in Hfull by (unfold len; rewrite sort_length; lia).
  rewrite (rerankWithDiversity_walks _ _ _ _ _ _ Hfull), Hr. fold K. f_equal.
  assert (Forall (fun r => source r = uid) (sort byRerankScoreDesc X)) as Hsrc.
  { apply sort_Forall, Forall_forall. intros r Hin.
    apply elem_of_lookup_imap_1 in Hin as (i & c & -> & Hc). simpl.
    rewrite Forall_forall in Hall. by eapply Hall, list_elem_of_lookup_2. }
  assert (length (sort byRerankScoreDesc X) = length results) as Hlen
    by by rewrite sort_length.
  rewrite ceil_half.
  destruct (sort byRerankScoreDesc X) as [|top rest].
  { destruct results; [done|simpl in Hlen; lia]. }
  apply Forall_cons in Hsrc as [Htop Hrest].
  rewrite slice_0_take by (Z.div_mod_to_equations; lia).
  unfold diverse. cbn [diversityLoop diversityStep].
  rewrite decide_False by apply not_elem_of_empty. simpl.
  replace (Z.to_nat ((K + 1) / 2)) with (S (Z.to_nat ((K + 1) / 2 - 1)))
    by (Z.div_mod_to_equations; lia).
  simpl. change (len [top]) with 1. destruct (Z.leb_spec K 1).
  - simpl. replace (Z.to_nat ((K + 1) / 2 - 1)) with 0%nat
      by (Z.div_mod_to_equations; lia).
    by rewrite take_0.
  - rewrite diversityLoop_same_ticket; [done| |done].
    intros r Hr'. rewrite Forall_forall in Hrest. rewrite (Hrest r Hr'), <- Htop.
    apply elem_of_union. right. by apply elem_of_singleton.
Qed.

(** Three candidates of ticket A and the default budget of 5. *)
Lemma rerankWithDiversity_one_ticket_witness :
  Config.apiKey cfg ≠ ""
  ∧ Forall (fun c => c.(metadata).(ticketUid) = "A") (take 3 fourHits)
  ∧ 1 ≤ 5
  ∧ rerankWithDiversity cfg (grading [6; 9; 7]%Q) "q" (take 3 fourHits) None
    = rerankWithOpenAI cfg (grading [6; 9; 7]%Q) "q" (take 3 fourHits)
        (Some (Qceiling (inject_Z 5 / 2))).
Proof.
  assert (Config.apiKey cfg ≠ "") as Hk by done.
  assert (Forall (fun c => c.(metadata).(ticketUid) = "A") (take 3 fourHits)) as Hall
    by (repeat constructor).
  assert (1 ≤ 5) as HK by lia.
  split; [exact Hk|]. split; [exact Hall|]. split; [exact HK|].
  exact (rerankWithDiversity_one_ticket cfg (grading [6; 9; 7]%Q) "q" (take 3 fourHits)
           None "A" Hk Hall HK).
Defined.

End OneTicketClaims.
